(** * Rate-limited dispatch and the rolling key matcher of [script.js]

    A shallow embedding of the three pieces of [script.js] that carry
    state across events:

    - [throttle] (lines 569-580) and [debounce] (lines 582-592), closures
      over a flag or a timer handle that talk to the host's timer
      facility ([setTimeout] / [clearTimeout]);
    - the [keydown] listener that maintains the [konamiCode] buffer
      (lines 624-640).

    The host is modelled as a simulated clock with a queue of pending
    timers.  Time is in whole milliseconds.  A timer that is due at time
    [t] runs when the clock reaches [t], before any event delivered at
    [t]; calls made without letting the clock move run back to back, as
    they do inside one JavaScript task. *)

From Stdlib Require Import ZArith String Ascii Bool List Lia DecimalString.
Import ListNotations.
Open Scope Z_scope.

(** ** JavaScript values

    Payloads are never inspected by the wrappers; objects are compared by
    reference. *)

Inductive value : Type :=
| VUndefined
| VNull
| VBool (b : bool)
| VNumber (n : Z)
| VString (s : string)
| VObject (ref : nat).

(** A callback: receiver, argument list, the state it may touch; it
    yields a return value and the new state.  A callback is taken to
    return normally and to leave the wrapper and the timers alone. *)
Definition callback (U : Type) : Type := value -> list value -> U -> value * U.

(** A callback for examples: it counts how often it ran and returns the
    count so far. *)
Definition counter : callback nat :=
  fun _ _ n => (VNumber (Z.of_nat n), S n).


(** One observed invocation of the wrapped callback. *)
Record invocation : Type := Invoked {
  at_ms : Z;
  receiver : value;
  arguments : list value
}.

(** ** The host's timers *)

Module Host.
Section WithTask.
Context {task : Type}.

Record timer : Type := Timer { tid : nat; due : Z; job : task }.

Record t : Type := Make { now : Z; next_id : nat; pending : list timer }.

(** Page load: clock at zero, no timer; handles are positive. *)
Definition boot : t := Make 0 1 [].

(** [setTimeout(job, delay)]: a negative delay counts as zero. *)
Definition setTimeout (j : task) (delay : Z) (h : t) : nat * t :=
  (next_id h,
   Make (now h) (S (next_id h))
        (pending h ++ [Timer (next_id h) (now h + Z.max 0 delay) j])).

Definition keeps (handle : nat) (tm : timer) : bool :=
  negb (Nat.eqb (tid tm) handle).

(** [clearTimeout(handle)]: [undefined] or a stale handle clears
    nothing. *)
Definition clearTimeout (handle : option nat) (h : t) : t :=
  match handle with
  | None => h
  | Some i => Make (now h) (next_id h) (filter (keeps i) (pending h))
  end.

(** Of two timers the one due first; on a tie the one scheduled
    first. *)
Definition earlier (a b : timer) : timer :=
  if due b <? due a then b else a.

Fixpoint earliest (l : list timer) : option timer :=
  match l with
  | [] => None
  | a :: l' =>
      Some (match earliest l' with
            | None => a
            | Some b => earlier a b
            end)
  end.

Definition is_due (t0 : Z) (tm : timer) : bool := due tm <=? t0.

(** The timer to run next when the clock is allowed to reach [t0]. *)
Definition next_due (t0 : Z) (h : t) : option timer :=
  earliest (filter (is_due t0) (pending h)).

(** The clock jumps to the timer's due time and the timer leaves the
    queue. *)
Definition take (tm : timer) (h : t) : t :=
  Make (Z.max (now h) (due tm)) (next_id h)
       (filter (keeps (tid tm)) (pending h)).

Definition set_now (t0 : Z) (h : t) : t :=
  Make t0 (next_id h) (pending h).

End WithTask.
Arguments timer : clear implicits.
Arguments t : clear implicits.
End Host.

(** ** The event loop around a wrapper instance *)

Module Loop.
Section WithExec.
Context {task closure : Type}.

(** The host together with the variables a wrapper closes over. *)
Record world : Type := World { host : Host.t task; vars : closure }.

(** How a timer job runs. *)
Variable exec : task -> world -> world.

(** Run the timers that are due up to [t0], one after the other. *)
Fixpoint run_due (fuel : nat) (t0 : Z) (w : world) : world :=
  match fuel with
  | O => w
  | S fuel' =>
      match Host.next_due t0 (host w) with
      | None => w
      | Some tm =>
          run_due fuel' t0
                  (exec (Host.job tm) (World (Host.take tm (host w)) (vars w)))
      end
  end.

(** Let [d] milliseconds pass.  The jobs of this file never schedule a
    timer, so one round per pending timer is enough (see
    [throttle_tick_settles] and [debounce_tick_settles]). *)
Definition advance (d : Z) (w : world) : world :=
  let t0 := Host.now (host w) + Z.max 0 d in
  let w' := run_due (length (Host.pending (host w))) t0 w in
  World (Host.set_now t0 (host w')) (vars w').

End WithExec.
Arguments world : clear implicits.

Abbreviation now w := (Host.now (host w)).
Abbreviation pending w := (Host.pending (host w)).
Abbreviation later d w :=
  (World (Host.set_now (now w + Z.max 0 d) (host w)) (vars w)).

End Loop.

(** What a test drives a wrapper with: let time pass, or call it. *)
Inductive step : Type :=
| Tick (d : Z)
| Call (this : value) (args : list value).

(** Milliseconds a script lets pass. *)
Fixpoint elapsed (s : list step) : Z :=
  match s with
  | [] => 0
  | Tick d :: s' => Z.max 0 d + elapsed s'
  | Call _ _ :: s' => elapsed s'
  end.

(** The invocations of a log (most recent first) are pairwise at least
    [g] milliseconds apart. *)
Fixpoint spaced (g : Z) (l : list invocation) : Prop :=
  match l with
  | [] => True
  | e :: l' => (forall e', In e' l' -> at_ms e' + g <= at_ms e) /\ spaced g l'
  end.

(** [e] happened in the interval from [a] (included) to [a + g]
    (excluded). *)
Definition within (a g : Z) (e : invocation) : bool :=
  (a <=? at_ms e) && (at_ms e <? a + g).


(** ** [throttle(func, limit)], lines 569-580 *)

Module Throttle.

(** The only timer job: [() => inThrottle = false]. *)
Inductive task : Type := Unlock.

(** [let inThrottle;] starts out [undefined] ([None]). *)
Record closure (U : Type) : Type := Closure {
  inThrottle : option bool;
  user : U;
  calls : list invocation   (* most recent first *)
}.
Arguments Closure {U}.
Arguments inThrottle {U}.
Arguments user {U}.
Arguments calls {U}.

Definition world (U : Type) : Type := Loop.world task (closure U).

Abbreviation flag w := (inThrottle (Loop.vars w)).
Abbreviation state w := (user (Loop.vars w)).
Abbreviation log w := (calls (Loop.vars w)).

(** [!inThrottle] *)
Definition not_flag (f : option bool) : bool :=
  match f with
  | Some true => false
  | _ => true
  end.

Section Wrapper.
Context {U : Type}.
Variable func : callback U.
Variable limit : Z.

Definition fresh (u : U) : world U :=
  Loop.World Host.boot (Closure None u []).

Definition exec (j : task) (w : world U) : world U :=
  match j with
  | Unlock =>
      Loop.World (Loop.host w) (Closure (Some false) (state w) (log w))
  end.

(** The function [throttle] returns; [this] is the receiver it is
    called with.  Its body has no [return], so the call evaluates to
    [undefined]. *)
Definition throttled (this : value) (args : list value) (w : world U)
  : value * world U :=
  let v := Loop.vars w in
  if not_flag (inThrottle v) then
    (* func.apply(context, args); its result is discarded *)
    let u' := snd (func this args (user v)) in
    let seen := Invoked (Host.now (Loop.host w)) this args :: calls v in
    (* inThrottle = true; setTimeout(() => inThrottle = false, limit) *)
    let h' := snd (Host.setTimeout Unlock limit (Loop.host w)) in
    (VUndefined, Loop.World h' (Closure (Some true) u' seen))
  else
    (VUndefined, w).

Definition tick (d : Z) (w : world U) : world U := Loop.advance exec d w.

Definition do_step (w : world U) (s : step) : world U :=
  match s with
  | Tick d => tick d w
  | Call this args => snd (throttled this args w)
  end.

Definition run (s : list step) (w : world U) : world U :=
  fold_left do_step s w.

(** The lock window actually granted: a negative [limit] counts as
    zero. *)
Definition gap : Z := Z.max 0 limit.

(** The shape of the states a throttled wrapper can be in: idle with
    no timer, every past invocation at least [gap] behind; or locked
    with exactly one timer, due [gap] after the latest invocation. *)
Definition settled (w : world U) : Prop :=
  match Loop.pending w with
  | [] =>
      not_flag (flag w) = true /\
      forall e, In e (log w) -> at_ms e + gap <= Loop.now w
  | [tm] =>
      flag w = Some true /\
      Loop.now w <= Host.due tm /\
      match log w with
      | e :: _ => Host.due tm = at_ms e + gap
      | [] => False
      end
  | _ => False
  end.

Definition inv (lo : Z) (w : world U) : Prop :=
  settled w /\
  spaced gap (log w) /\
  lo <= Loop.now w /\
  forall e, In e (log w) -> lo <= at_ms e <= Loop.now w.

End Wrapper.
End Throttle.

(** ** [debounce(func, wait)], lines 582-592 *)

Module Debounce.

(** The only timer job: the closure [later], which captured [args]. *)
Inductive task : Type := Later (args : list value).

(** [let timeout;] starts out [undefined] ([None]). *)
Record closure (U : Type) : Type := Closure {
  timeout : option nat;
  user : U;
  calls : list invocation   (* most recent first *)
}.
Arguments Closure {U}.
Arguments timeout {U}.
Arguments user {U}.
Arguments calls {U}.

Definition world (U : Type) : Type := Loop.world task (closure U).

Abbreviation handle w := (timeout (Loop.vars w)).
Abbreviation state w := (user (Loop.vars w)).
Abbreviation log w := (calls (Loop.vars w)).

Section Wrapper.
Context {U : Type}.
Variable func : callback U.
Variable wait : Z.

Definition fresh (u : U) : world U :=
  Loop.World Host.boot (Closure None u []).

(** [later]: [clearTimeout(timeout); func(...args);].  The call
    [func(...args)] is a plain call: it hands [func] no receiver
    ([undefined]), whatever the receiver of the wrapper was. *)
Definition exec (j : task) (w : world U) : world U :=
  match j with
  | Later args =>
      let v := Loop.vars w in
      let h := Host.clearTimeout (timeout v) (Loop.host w) in
      let u' := snd (func VUndefined args (user v)) in
      Loop.World h
                 (Closure (timeout v) u'
                          (Invoked (Host.now h) VUndefined args :: calls v))
  end.

(** [executedFunction(...args)].  It never reads [this] and has no
    [return]. *)
Definition debounced (this : value) (args : list value) (w : world U)
  : value * world U :=
  let v := Loop.vars w in
  (* clearTimeout(timeout); timeout = setTimeout(later, wait) *)
  let h := Host.clearTimeout (timeout v) (Loop.host w) in
  let r := Host.setTimeout (Later args) wait h in
  (VUndefined, Loop.World (snd r) (Closure (Some (fst r)) (user v) (calls v))).

Definition tick (d : Z) (w : world U) : world U := Loop.advance exec d w.

Definition do_step (w : world U) (s : step) : world U :=
  match s with
  | Tick d => tick d w
  | Call this args => snd (debounced this args w)
  end.

Definition run (s : list step) (w : world U) : world U :=
  fold_left do_step s w.

(** The state right after a call with arguments [a]. *)
Definition rearmed (a : list value) (w : world U) : world U :=
  Loop.World
    (Host.Make (Loop.now w) (S (Host.next_id (Loop.host w)))
               [Host.Timer (Host.next_id (Loop.host w))
                           (Loop.now w + Z.max 0 wait) (Later a)])
    (Closure (Some (Host.next_id (Loop.host w))) (state w) (log w)).

(** The shape of the states a debounced wrapper can be in: no timer,
    or exactly one, which [timeout] names; handles are never
    reused. *)
Definition armed (w : world U) : Prop :=
  match Loop.pending w with
  | [] => True
  | [tm] => handle w = Some (Host.tid tm) /\ Loop.now w <= Host.due tm
  | _ => False
  end.

Definition inv (w : world U) : Prop :=
  armed w /\
  forall tm, In tm (Loop.pending w) ->
             (Host.tid tm < Host.next_id (Loop.host w))%nat.

End Wrapper.

(** A burst after a first call: each further call comes [delay]
    milliseconds after the one before it. *)
Definition delay (x : Z * value * list value) : Z := fst (fst x).




End Debounce.

(** ** The [keydown] listener on [konamiCode], lines 624-640 *)

Module Konami.

Definition target : string :=
  "ArrowUpArrowUpArrowDownArrowDownArrowLeftArrowRightArrowLeftArrowRightba".

(** The ten keys the target text is made of. *)
Definition pattern : list string :=
  ["ArrowUp"; "ArrowUp"; "ArrowDown"; "ArrowDown"; "ArrowLeft";
   "ArrowRight"; "ArrowLeft"; "ArrowRight"; "b"; "a"]%string.

(** [konamiCode.join('')] *)
Definition join (buf : list string) : string := String.concat "" buf.

(** [konamiCode.push(e.key); if (konamiCode.length > 10) konamiCode.shift();] *)
Definition push_shift (buf : list string) (key : string) : list string :=
  let b := buf ++ [key] in
  if (10 <? length b)%nat then tl b else b.

(** One [keydown] event: the buffer afterwards, and whether the branch
    with the alert was taken.  That branch does not touch the
    buffer. *)
Definition keydown (buf : list string) (key : string) : list string * bool :=
  let b := push_shift buf key in
  (b, String.eqb (join b) target).

(** A stream of events from a given buffer: the final buffer and the
    signals, one per event, in order. *)
Fixpoint feed (buf : list string) (keys : list string)
  : list string * list bool :=
  match keys with
  | [] => (buf, [])
  | k :: keys' =>
      let r := feed (fst (keydown buf k)) keys' in
      (fst r, snd (keydown buf k) :: snd r)
  end.

Definition buffer_after (keys : list string) : list string :=
  fst (feed [] keys).

Definition signals (keys : list string) : list bool :=
  snd (feed [] keys).

Definition matches (keys : list string) : nat :=
  count_occ bool_dec (signals keys) true.

(** [l] with the element at index [i] replaced by [x]. *)
Fixpoint replace_at (i : nat) (x : string) (l : list string) : list string :=
  match l, i with
  | [], _ => []
  | _ :: l', O => x :: l'
  | a :: l', S i' => a :: replace_at i' x l'
  end.

(** The last [n] elements of a list. *)
Definition last_n (n : nat) (l : list string) : list string :=
  skipn (length l - n) l.

End Konami.

(** ** What the wrappers' logs say about the callback's state *)

(** The callback run on the invocations of a log (most recent first),
    oldest first. *)
Definition replay {U : Type} (func : callback U) (l : list invocation) (u : U)
  : U :=
  fold_right (fun e acc => snd (func (receiver e) (arguments e) acc)) u l.

(** The calls a script makes. *)
Fixpoint calls_in (s : list step) : nat :=
  match s with
  | [] => O
  | Tick _ :: s' => calls_in s'
  | Call _ _ :: s' => S (calls_in s')
  end.



(** ** The mouse log of [initializeMouseEvents], lines 21-40 *)

Module MouseLog.

(** The [li] children of [#mouse-log], oldest first.  An entry is
    represented by the event it reports; its text also carries the time
    of day. *)
Definition entries : Type := list value.

(** [while (mouseLog.children.length > 10)
      mouseLog.removeChild(mouseLog.firstChild);] *)
Fixpoint drop_oldest (fuel : nat) (l : entries) : entries :=
  match fuel with
  | O => l
  | S fuel' => if (10 <? length l)%nat then drop_oldest fuel' (tl l) else l
  end.

(** [addMouseLogEntry(event)], lines 25-35.  The listeners always hand
    it an event object (on [undefined] or [null] the source would throw
    while building the text). *)
Definition addMouseLogEntry : callback entries :=
  fun _ args log =>
    let l := log ++ [nth 0 args VUndefined] in
    (VUndefined, drop_oldest (length l) l).

(** [#mouse-target], the element the three listeners sit on. *)
Definition mouseTarget : value := VObject 0.

(** What happens to the element: the mouse enters, leaves or moves
    (with the reference of the event object), or time passes. *)
Inductive mouse : Type :=
| Enter (ev : nat)
| Leave (ev : nat)
| Move (ev : nat)
| Wait (d : Z).

(** [mouseenter] and [mouseleave] call [addMouseLogEntry] directly. *)
Definition direct (ev : nat) (w : Throttle.world entries)
  : Throttle.world entries :=
  Loop.World
    (Loop.host w)
    (Throttle.Closure
       (Throttle.flag w)
       (snd (addMouseLogEntry mouseTarget [VObject ev] (Throttle.state w)))
       (Throttle.log w)).

(** [mousemove] goes through [throttle(addMouseLogEntry, 100)]. *)
Definition handle (w : Throttle.world entries) (m : mouse)
  : Throttle.world entries :=
  match m with
  | Enter ev => direct ev w
  | Leave ev => direct ev w
  | Move ev =>
      snd (Throttle.throttled addMouseLogEntry 100 mouseTarget [VObject ev] w)
  | Wait d => Throttle.tick d w
  end.

Definition play (ms : list mouse) (w : Throttle.world entries)
  : Throttle.world entries :=
  fold_left handle ms w.

(** The events that make it into the log, in order. *)
Fixpoint reported (ms : list mouse) (w : Throttle.world entries)
  : list value :=
  match ms with
  | [] => []
  | m :: ms' =>
      match m with
      | Enter ev => [VObject ev]
      | Leave ev => [VObject ev]
      | Move ev =>
          if Throttle.not_flag (Throttle.flag w) then [VObject ev] else []
      | Wait _ => []
      end ++ reported ms' (handle w m)
  end.

(** The last [n] entries. *)
Definition last_entries (n : nat) (l : entries) : entries :=
  skipn (length l - n) l.

(** What the log shows once the events [r] have been reported. *)
Definition shown (l r : entries) : entries :=
  match r with
  | [] => l
  | _ => last_entries 10 (l ++ r)
  end.

End MouseLog.

(** ** The effect of the Konami match, lines 631-639 *)

Module Egg.

(** The only timer job: the arrow function that clears the two style
    properties of [document.body]. *)
Inductive task : Type := Restore.

(** [konamiCode], the two style properties, and the alerts shown. *)
Record page : Type := Page {
  konamiCode : list string;
  background : string;
  animation : string;
  alerts : nat
}.

Definition world : Type := Loop.world task page.

Definition rainbow : string :=
  "linear-gradient(45deg, #ff0000, #ffff00, #00ff00, #00ffff, #0000ff, #ff00ff)".

Definition spinning : string := "rainbow 2s infinite".

Definition loaded : world :=
  Loop.World Host.boot (Page [] "" "" 0).

Definition exec (j : task) (w : world) : world :=
  match j with
  | Restore =>
      Loop.World (Loop.host w)
                 (Page (konamiCode (Loop.vars w)) "" "" (alerts (Loop.vars w)))
  end.

(** The [keydown] listener of [document]. *)
Definition keydown (key : string) (w : world) : world :=
  let r := Konami.keydown (konamiCode (Loop.vars w)) key in
  if snd r then
    Loop.World (snd (Host.setTimeout Restore 5000 (Loop.host w)))
               (Page (fst r) rainbow spinning (S (alerts (Loop.vars w))))
  else
    Loop.World (Loop.host w)
               (Page (fst r) (background (Loop.vars w))
                     (animation (Loop.vars w)) (alerts (Loop.vars w))).

Inductive event : Type :=
| Key (key : string)
| Pause (d : Z).

Definition handle (w : world) (e : event) : world :=
  match e with
  | Key k => keydown k w
  | Pause d => Loop.advance exec d w
  end.

Definition play (es : list event) (w : world) : world :=
  fold_left handle es w.

(** The keys of a sequence of events. *)
Fixpoint keys_of (es : list event) : list string :=
  match es with
  | [] => []
  | Key k :: es' => k :: keys_of es'
  | Pause _ :: es' => keys_of es'
  end.

(** The style is in order: background and animation go together, the
    background is the rainbow or empty, and while the rainbow is on, a
    timer that will clear it is pending and due within five seconds. *)
Definition covered (w : world) : Prop :=
  (background (Loop.vars w) = EmptyString
   <-> animation (Loop.vars w) = EmptyString) /\
  (background (Loop.vars w) = EmptyString
   \/ background (Loop.vars w) = rainbow) /\
  (background (Loop.vars w) <> EmptyString ->
   exists tm, In tm (Loop.pending w) /\ Host.due tm <= Loop.now w + 5000).

End Egg.

(** ** JavaScript strings *)

Module JS.

(** A string is its sequence of UTF-16 code units. *)
Definition jstring : Type := list N.

(** An ASCII literal. *)
Definition lit (s : string) : jstring :=
  map N_of_ascii (list_ascii_of_string s).

(** [`${n}`] for a count. *)
Definition digits (n : nat) : jstring :=
  lit (NilZero.string_of_uint (Nat.to_uint n)).

(** White space and line terminators: what [\s] matches and [trim]
    strips. *)
Definition is_space (c : N) : bool :=
  ((9 <=? c) && (c <=? 13)
   || (c =? 32) || (c =? 160) || (c =? 5760)
   || (8192 <=? c) && (c <=? 8202)
   || (c =? 8232) || (c =? 8233) || (c =? 8239) || (c =? 8287)
   || (c =? 12288) || (c =? 65279))%N.

Fixpoint trimStart (s : jstring) : jstring :=
  match s with
  | [] => []
  | c :: s' => if is_space c then trimStart s' else s
  end.

Definition trimEnd (s : jstring) : jstring := rev (trimStart (rev s)).

(** [s.trim()] *)
Definition trim (s : jstring) : jstring := trimEnd (trimStart s).

(** A string in a condition: the empty string is falsy. *)
Definition truthy (s : jstring) : bool :=
  match s with
  | [] => false
  | _ => true
  end.

End JS.

(** ** Regular expressions without captures, matched against a whole
    string ([^...$], no flags) *)

Module Regex.

Inductive t : Type :=
| Never
| Empty
| Class (p : N -> bool)
| Seq (a b : t)
| Alt (a b : t)
| Star (a : t).

(** [a+] *)
Definition plus (a : t) : t := Seq a (Star a).

(** [a{2,}] *)
Definition two_or_more (a : t) : t := Seq a (Seq a (Star a)).

Definition char (c : N) : t := Class (N.eqb c).

Fixpoint nullable (r : t) : bool :=
  match r with
  | Never => false
  | Empty => true
  | Class _ => false
  | Seq a b => nullable a && nullable b
  | Alt a b => nullable a || nullable b
  | Star _ => true
  end.

(** What is left of [r] once it has read [c]. *)
Fixpoint deriv (c : N) (r : t) : t :=
  match r with
  | Never => Never
  | Empty => Never
  | Class p => if p c then Empty else Never
  | Seq a b =>
      if nullable a then Alt (Seq (deriv c a) b) (deriv c b)
      else Seq (deriv c a) b
  | Alt a b => Alt (deriv c a) (deriv c b)
  | Star a => Seq (deriv c a) (Star a)
  end.

(** [/^r$/.test(s)] *)
Definition test (r : t) (s : JS.jstring) : bool :=
  nullable (fold_left (fun r c => deriv c r) s r).

(** The strings a regular expression stands for. *)
Inductive denotes : t -> JS.jstring -> Prop :=
| DEmpty : denotes Empty []
| DClass (p : N -> bool) (c : N) : p c = true -> denotes (Class p) [c]
| DSeq (a b : t) (s1 s2 : JS.jstring) :
    denotes a s1 -> denotes b s2 -> denotes (Seq a b) (s1 ++ s2)
| DAltL (a b : t) (s : JS.jstring) : denotes a s -> denotes (Alt a b) s
| DAltR (a b : t) (s : JS.jstring) : denotes b s -> denotes (Alt a b) s
| DStarNil (a : t) : denotes (Star a) []
| DStarApp (a : t) (s1 s2 : JS.jstring) :
    denotes a s1 -> denotes (Star a) s2 -> denotes (Star a) (s1 ++ s2).

End Regex.

(** ** The form of [initializeFormEvents], lines 73-213, and the mini
    email check, lines 434-464 *)

Module Form.
Import JS.

(** [[^\s@]] *)
Definition plain (c : N) : bool := negb (is_space c) && negb (c =? 64)%N.

(** [/^[^\s@]+@[^\s@]+\.[^\s@]+$/] *)
Definition emailPattern : Regex.t :=
  Regex.Seq (Regex.plus (Regex.Class plain))
    (Regex.Seq (Regex.char 64)
       (Regex.Seq (Regex.plus (Regex.Class plain))
          (Regex.Seq (Regex.char 46) (Regex.plus (Regex.Class plain))))).

Definition validateEmail (email : jstring) : bool :=
  Regex.test emailPattern (trim email).

(** [[a-zA-Z\s]] *)
Definition letter_or_space (c : N) : bool :=
  ((97 <=? c) && (c <=? 122) || (65 <=? c) && (c <=? 90))%N || is_space c.

(** [/^[a-zA-Z\s]{2,}$/] *)
Definition namePattern : Regex.t :=
  Regex.two_or_more (Regex.Class letter_or_space).

Definition validateName (name : jstring) : bool :=
  (2 <=? length (trim name))%nat && Regex.test namePattern (trim name).

Definition validateMessage (message : jstring) : bool :=
  let trimmed := trim message in
  (10 <=? length trimmed)%nat && (length trimmed <=? 100)%nat.

(** [validateMiniEmail], lines 439-442: the same pattern. *)
Definition validateMiniEmail (email : jstring) : bool :=
  Regex.test emailPattern (trim email).

(** Border colours. *)
Definition red : string := "#dc3545".
Definition green : string := "#28a745".
Definition grey : string := "#666".

Definition tick_mark : jstring := [9989]%N.
Definition cross_mark : jstring := [10060]%N.
Definition envelope : jstring := [55357; 56551]%N.
Definition check : jstring := [10003]%N.
Definition ballot_x : jstring := [10007]%N.





(** [Object.fromEntries(new FormData(form))]: a field the form does not
    have is [undefined]. *)
Record data : Type := Data {
  name : option jstring;
  email : option jstring;
  message : option jstring
}.

(** [!data.x || !validate(data.x)]: the validator is not reached when
    the field is missing or empty. *)
Definition rejected (v : option jstring) (validate : jstring -> bool) : bool :=
  match v with
  | None => true
  | Some s => negb (truthy s) || negb (validate s)
  end.

(** How many of the three fields the [submit] listener rejects. *)
Definition failures (d : data) : nat :=
  ((if rejected (name d) validateName then 1 else 0)
  + (if rejected (email d) validateEmail then 1 else 0)
  + (if rejected (message d) validateMessage then 1 else 0))%nat.

(** The state the [submit] listener builds up, then what it does with
    it. *)
Record outcome : Type := Outcome {
  isValid : bool;
  errors : list jstring;
  nameBorder : string;
  emailBorder : string;
  messageBorder : string;
  logged : list jstring;
  alerted : bool;
  reset : bool
}.

(** The [submit] listener, lines 164-212.  It always prevents the
    default action. *)
Definition on_submit (d : data) : outcome :=
  let v0 := true in
  let e0 : list jstring := [] in
  let '(v1, e1, nb) :=
    if rejected (name d) validateName then
      (false,
       e0 ++ [cross_mark
              ++ lit " Name is required and must be at least 2 characters"],
       red)
    else (v0, e0, green) in
  let '(v2, e2, eb) :=
    if rejected (email d) validateEmail then
      (false, e1 ++ [cross_mark ++ lit " Valid email is required"], red)
    else (v1, e1, green) in
  let '(v3, e3, mb) :=
    if rejected (message d) validateMessage then
      (false,
       e2 ++ [cross_mark ++ lit " Message is required (10-100 characters)"],
       red)
    else (v2, e2, green) in
  if v3 then
    Outcome v3 e3 "" "" ""
            [tick_mark ++ lit " Form submitted successfully!";
             envelope ++ lit " Data validated with custom JavaScript validation"]
            true true
  else
    Outcome v3 e3 nb eb mb
            (e3 ++ [cross_mark
                    ++ lit " Please fix validation errors and try again"])
            false false.

(** The [input] listener of the mini email field, lines 445-462: the
    text and the colour of [#validation-result]. *)
Definition on_mini_email_input (value : jstring) : jstring * string :=
  let email := trim value in
  if negb (truthy email) then
    (lit "Please enter an email address", grey)
  else if validateMiniEmail email then
    (check ++ lit " Valid email format", green)
  else
    (ballot_x ++ lit " Invalid email format", red).

End Form.

(** ** The keyboard field of [initializeKeyboardEvents], lines 224-237 *)

Module Keyboard.
Import JS.

(** [s.slice(0, -1)] *)
Definition but_last (s : jstring) : jstring := removelast s.

(** What the [keydown] listener leaves behind: the text of
    [#key-code] and of [#last-key], the value of the field, and whether
    the default action was prevented. *)
Record effect : Type := Effect {
  keyCodeText : jstring;
  lastKeyText : jstring;
  value : jstring;
  prevented : bool
}.

(** The [keydown] listener, for an event with the given [key] and
    [keyCode]. *)
Definition on_keydown (key : jstring) (keyCode : nat) (v : jstring) : effect :=
  if list_eq_dec N.eq_dec key (lit "Enter") then
    Effect (digits keyCode) key (v ++ lit " (Enter pressed!) ") false
  else if list_eq_dec N.eq_dec key (lit "Backspace") then
    Effect (digits keyCode) key (but_last v ++ lit " (Backspace used) ") true
  else
    Effect (digits keyCode) key v false.

End Keyboard.

(** ** The dynamic list of [initializeDynamicContent], lines 506-566 *)

Module DynamicList.

(** An [li] of [#dynamic-list]: one that was in the page when it
    loaded (by its position then), or the one that [add] created and
    labelled [Item n]. *)
Inductive item : Type :=
| Static (i : nat)
| Added (n : nat).

Definition item_eq_dec (x y : item) : {x = y} + {x <> y}.
Proof. decide equality; apply Nat.eq_dec. Defined.

(** The three style properties the listeners write. *)
Record css : Type := Css {
  opacity : string;
  transform : string;
  transition : string
}.

(** The timer jobs: the fade-in of a new item, the fade-out that
    [clear all] starts for an item, and [item.remove()]. *)
Inductive task : Type :=
| FadeIn (x : item)
| FadeOut (x : item)
| Detach (x : item).

Record page : Type := Page {
  children : list item;
  itemCount : nat;
  style : item -> css
}.

Definition world : Type := Loop.world task page.

Definition restyle (x : item) (c : css) (st : item -> css) : item -> css :=
  fun y => if item_eq_dec y x then c else st y.

(** The page with [k] items: [itemCount] starts as their number. *)
Definition start (k : nat) (st : item -> css) : world :=
  Loop.World Host.boot (Page (map Static (seq 0 k)) k st).

(** [dynamicList.lastElementChild] *)
Definition lastElementChild (l : list item) : option item :=
  match rev l with
  | [] => None
  | x :: _ => Some x
  end.

(** The [click] listener of [#add-item]. *)
Definition add (w : world) : world :=
  let p := Loop.vars w in
  let n := S (itemCount p) in
  let li := Added n in
  Loop.World
    (snd (Host.setTimeout (FadeIn li) 10 (Loop.host w)))
    (Page (children p ++ [li]) n
          (restyle li (Css "0" "translateX(-20px)" "") (style p))).

(** The [click] listener of [#remove-item]. *)
Definition remove_last (w : world) : world :=
  let p := Loop.vars w in
  match lastElementChild (children p) with
  | Some lastItem =>
      Loop.World
        (snd (Host.setTimeout (Detach lastItem) 300 (Loop.host w)))
        (Page (children p) (itemCount p)
              (restyle lastItem (Css "0" "translateX(20px)" "all 0.3s ease")
                       (style p)))
  | None => w
  end.

(** [forEach((item, index) => setTimeout(..., index * 50))] *)
Fixpoint schedule_fades (l : list item) (index : nat) (h : Host.t task)
  : Host.t task :=
  match l with
  | [] => h
  | x :: l' =>
      schedule_fades l' (S index)
        (snd (Host.setTimeout (FadeOut x) (Z.of_nat index * 50) h))
  end.

(** The [click] listener of [#clear-all]; [confirmed] is the answer to
    [confirm]. *)
Definition clear_all (confirmed : bool) (w : world) : world :=
  if confirmed then
    Loop.World (schedule_fades (children (Loop.vars w)) 0 (Loop.host w))
               (Loop.vars w)
  else w.

(** The [click] listener of the delete button of an item: the item is
    removed from the list. *)
Definition delete (x : item) (w : world) : world :=
  let p := Loop.vars w in
  Loop.World (Loop.host w)
             (Page (remove item_eq_dec x (children p)) (itemCount p) (style p)).

Definition exec (j : task) (w : world) : world :=
  let p := Loop.vars w in
  match j with
  | FadeIn x =>
      Loop.World (Loop.host w)
                 (Page (children p) (itemCount p)
                       (restyle x (Css "1" "translateX(0)" "all 0.3s ease")
                                (style p)))
  | FadeOut x =>
      Loop.World (snd (Host.setTimeout (Detach x) 300 (Loop.host w)))
                 (Page (children p) (itemCount p)
                       (restyle x (Css "0" "scale(0.8)" "all 0.3s ease")
                                (style p)))
  | Detach x =>
      Loop.World (Loop.host w)
                 (Page (remove item_eq_dec x (children p)) (itemCount p)
                       (style p))
  end.

(** A fade-out schedules one more timer; the other jobs schedule
    none. *)
Definition weight (j : task) : nat :=
  match j with
  | FadeOut _ => 2
  | _ => 1
  end.

Fixpoint rounds (l : list (Host.timer task)) : nat :=
  match l with
  | [] => O
  | tm :: l' => (weight (Host.job tm) + rounds l')%nat
  end.

(** Let [d] milliseconds pass, with a round for every timer that is
    pending or may get scheduled meanwhile (see [list_advance_settles]). *)
Definition advance (d : Z) (w : world) : world :=
  let t0 := Loop.now w + Z.max 0 d in
  let w' := Loop.run_due exec (rounds (Loop.pending w)) t0 w in
  Loop.World (Host.set_now t0 (Loop.host w')) (Loop.vars w').

Inductive click : Type :=
| Add
| RemoveLast
| ClearAll (confirmed : bool)
| Delete (x : item)
| Wait (d : Z).

Definition handle (w : world) (c : click) : world :=
  match c with
  | Add => add w
  | RemoveLast => remove_last w
  | ClearAll confirmed => clear_all confirmed w
  | Delete x => delete x w
  | Wait d => advance d w
  end.

Definition play (cs : list click) (w : world) : world :=
  fold_left handle cs w.

(** The clicks on [add] in a sequence. *)
Fixpoint adds (cs : list click) : nat :=
  match cs with
  | [] => O
  | Add :: cs' => S (adds cs')
  | _ :: cs' => adds cs'
  end.

(** Milliseconds a sequence lets pass. *)
Fixpoint waited (cs : list click) : Z :=
  match cs with
  | [] => 0
  | Wait d :: cs' => Z.max 0 d + waited cs'
  | _ :: cs' => waited cs'
  end.

(** An item the page can hold when it had [k] items at first and the
    counter stands at [count]. *)
Definition known (k count : nat) (x : item) : Prop :=
  match x with
  | Static i => (i < k)%nat
  | Added n => (k < n <= count)%nat
  end.

(** The queue is in order: handles are distinct and were all given
    out, and no timer is overdue. *)
Definition queue_ok (w : world) : Prop :=
  NoDup (map Host.tid (Loop.pending w)) /\
  (forall tm, In tm (Loop.pending w) ->
              (Host.tid tm < Host.next_id (Loop.host w))%nat) /\
  (forall tm, In tm (Loop.pending w) -> Loop.now w <= Host.due tm).

(** The list is in order: no item twice, every item known. *)
Definition list_ok (k : nat) (w : world) : Prop :=
  NoDup (children (Loop.vars w)) /\
  (k <= itemCount (Loop.vars w))%nat /\
  forall x, In x (children (Loop.vars w)) ->
            known k (itemCount (Loop.vars w)) x.

(** Item [x] is out of the list, or a timer is pending that gets it
    out by time [T]. *)
Definition leaving (T : Z) (x : item) (w : world) : Prop :=
  ~ In x (children (Loop.vars w)) \/
  (exists tm, In tm (Loop.pending w) /\
              Host.job tm = Detach x /\ Host.due tm <= T) \/
  (exists tm, In tm (Loop.pending w) /\
              Host.job tm = FadeOut x /\ Host.due tm + 300 <= T).

(** All the items the page can hold when the counter stands at
    [c]. *)
Definition all_known (k c : nat) : list item :=
  (map Static (seq 0 k) ++ map Added (seq (S k) (c - k)))%list.

End DynamicList.

(** ** The window size display of [initializeWindowEvents],
    lines 281-297 *)

Module WindowSize.

(** The size of the window and the text of [#window-width] and
    [#window-height]. *)
Record view : Type := View {
  innerWidth : nat;
  innerHeight : nat;
  widthText : JS.jstring;
  heightText : JS.jstring
}.

(** [updateWindowSize], lines 287-290. *)
Definition updateWindowSize : callback view :=
  fun _ _ v =>
    (VUndefined,
     View (innerWidth v) (innerHeight v)
          (JS.digits (innerWidth v)) (JS.digits (innerHeight v))).

(** The window gets a new size and the [resize] event (with the
    reference of the event object) is dispatched, or time passes. *)
Inductive happening : Type :=
| Resize (width height : nat) (ev : nat)
| Wait (d : Z).

Definition window : value := VObject 0.

Definition resized (width height : nat) (w : Throttle.world view)
  : Throttle.world view :=
  Loop.World
    (Loop.host w)
    (Throttle.Closure
       (Throttle.flag w)
       (View width height (widthText (Throttle.state w))
             (heightText (Throttle.state w)))
       (Throttle.log w)).

(** The listener is [throttle(updateWindowSize, 250)]. *)
Definition handle (w : Throttle.world view) (h : happening)
  : Throttle.world view :=
  match h with
  | Resize width height ev =>
      snd (Throttle.throttled updateWindowSize 250 window [VObject ev]
                              (resized width height w))
  | Wait d => Throttle.tick d w
  end.

Definition play (hs : list happening) (w : Throttle.world view)
  : Throttle.world view :=
  fold_left handle hs w.

End WindowSize.

(** ** The tabs of [initializeTabs], lines 364-397 *)

Module Tabs.

(** An element, as far as the tabs are concerned. *)
Record element : Type := Element {
  id : option string;
  classList : list string;
  dataTab : option string
}.

(** The document: its elements in tree order. *)
Definition document : Type := list element.

(** [classList.contains(token)] *)
Definition contains (token : string) (e : element) : bool :=
  existsb (String.eqb token) (classList e).

(** [classList.remove(token)] *)
Definition remove_class (token : string) (e : element) : element :=
  Element (id e)
          (filter (fun c => negb (String.eqb token c)) (classList e))
          (dataTab e).

(** [classList.add(token)] *)
Definition add_class (token : string) (e : element) : element :=
  if contains token e then e
  else Element (id e) (classList e ++ [token]) (dataTab e).

(** [document.querySelectorAll('.' + token)]: the positions of the
    elements that carry the class. *)
Fixpoint with_class (token : string) (doc : document) (from : nat)
  : list nat :=
  match doc with
  | [] => []
  | e :: doc' =>
      if contains token e then from :: with_class token doc' (S from)
      else with_class token doc' (S from)
  end.

(** [document.getElementById(name)]: the position of the first element
    with that id; an empty [id] attribute is no id. *)
Fixpoint getElementById (name : string) (doc : document) (from : nat)
  : option nat :=
  match doc with
  | [] => None
  | e :: doc' =>
      match id e with
      | Some i =>
          if String.eqb i name && negb (String.eqb i "") then Some from
          else getElementById name doc' (S from)
      | None => getElementById name doc' (S from)
      end
  end.

(** Apply [f] to the element at position [pos]. *)
Fixpoint update (pos : nat) (f : element -> element) (doc : document)
         {struct doc} : document :=
  match doc, pos with
  | [], _ => []
  | e :: doc', O => f e :: doc'
  | e :: doc', S pos' => e :: update pos' f doc'
  end.

(** [nodes.forEach(n => n.classList.remove(token))] *)
Definition remove_from_all (token : string) (nodes : list nat)
           (doc : document) : document :=
  fold_left (fun d n => update n (remove_class token) d) nodes doc.

(** [this.getAttribute('data-tab')] handed to [getElementById]: [null]
    becomes the text null. *)
Definition tab_id (e : element) : string :=
  match dataTab e with
  | Some t => t
  | None => "null"
  end.

(** The [click] listener of the tab button at position [button];
    [tabButtons] and [tabPanels] are the node lists taken when the page
    was set up. *)
Definition on_tab_click (tabButtons tabPanels : list nat) (button : nat)
           (doc : document) : document :=
  let d1 := remove_from_all "active" tabButtons doc in
  let d2 := remove_from_all "active" tabPanels d1 in
  let d3 := update button (add_class "active") d2 in
  let tabId :=
    match nth_error d3 button with
    | Some e => tab_id e
    | None => "null"%string
    end in
  match getElementById tabId d3 0 with
  | Some activePanel => update activePanel (add_class "active") d3
  | None => d3
  end.

(** The element a click on the button at [button] looks up. *)
Definition target_of (button : nat) (doc : document) : option nat :=
  getElementById
    match nth_error doc button with
    | Some e => tab_id e
    | None => "null"%string
    end doc 0.

(** The listeners change classes only. *)
Definition same_marks (d d' : document) : Prop :=
  map id d' = map id d /\ map dataTab d' = map dataTab d.

(** Whether the element at a position carries [active]. *)
Definition active (doc : document) (pos : nat) : bool :=
  match nth_error doc pos with
  | Some e => contains "active" e
  | None => false
  end.

End Tabs.

(** * The throttled wrapper *)

Section ThrottleFacts.
Import Throttle.
Context {U : Type}.
Variable func : callback U.
Variable limit : Z.

Import Loop.

Local Abbreviation world := (Throttle.world U).

Local Abbreviation gap := (Throttle.gap limit).
Local Abbreviation inv := (Throttle.inv limit).
Local Abbreviation settled := (Throttle.settled limit).

(** ** Single steps *)

Lemma keeps_self (tm : Host.timer task) : Host.keeps (Host.tid tm) tm = false.
Proof. unfold Host.keeps. rewrite Nat.eqb_refl. reflexivity. Qed.

Lemma tick_idle (d : Z) (w : world) :
  pending w = [] -> tick d w = later d w.
Proof.
  intros P. unfold tick, Loop.advance. rewrite P. reflexivity.
Qed.

Lemma tick_early (d : Z) (w : world) (tm : Host.timer task) :
  pending w = [tm] -> now w + Z.max 0 d < Host.due tm ->
  tick d w = later d w.
Proof.
  intros P L. unfold tick, Loop.advance. rewrite P. simpl.
  unfold Host.next_due. rewrite P. simpl. unfold Host.is_due.
  destruct (Z.leb_spec (Host.due tm) (now w + Z.max 0 d)); [lia |].
  reflexivity.
Qed.

Lemma tick_release (d : Z) (w : world) (tm : Host.timer task) :
  pending w = [tm] -> Host.due tm <= now w + Z.max 0 d ->
  tick d w =
  Loop.World (Host.Make (now w + Z.max 0 d) (Host.next_id (Loop.host w)) [])
             (Closure (Some false) (user (Loop.vars w)) (log w)).
Proof.
  intros P L. unfold tick, Loop.advance. rewrite P. simpl.
  unfold Host.next_due. rewrite P. simpl. unfold Host.is_due.
  destruct (Z.leb_spec (Host.due tm) (now w + Z.max 0 d)); [| lia].
  simpl. destruct (Host.job tm). unfold exec, Host.take. simpl.
  rewrite P. simpl. rewrite keeps_self. reflexivity.
Qed.

Lemma call_idle (this : value) (args : list value) (w : world) :
  not_flag (flag w) = true ->
  throttled func limit this args w =
  (VUndefined,
   Loop.World
     (Host.Make (now w) (S (Host.next_id (Loop.host w)))
                (pending w ++
                 [Host.Timer (Host.next_id (Loop.host w)) (now w + gap)
                             Unlock]))
     (Closure (Some true) (snd (func this args (user (Loop.vars w))))
              (Invoked (now w) this args :: log w))).
Proof. intros F. unfold throttled. rewrite F. reflexivity. Qed.

Lemma call_locked (this : value) (args : list value) (w : world) :
  flag w = Some true -> throttled func limit this args w = (VUndefined, w).
Proof. intros F. unfold throttled. rewrite F. reflexivity. Qed.

Lemma run_app (s1 s2 : list step) (w : world) :
  run func limit (s1 ++ s2) w = run func limit s2 (run func limit s1 w).
Proof. apply fold_left_app. Qed.

Lemma elapsed_nonneg (s : list step) : 0 <= elapsed s.
Proof. induction s as [| [d | c a] s IH]; simpl; lia. Qed.

Lemma elapsed_app (s1 s2 : list step) :
  elapsed (s1 ++ s2) = elapsed s1 + elapsed s2.
Proof. induction s1 as [| [d | c a] s1 IH]; simpl; lia. Qed.

(** While the lock is held and its timer is not yet due, calls and the
    passing of time change nothing but the clock: the timer is neither
    cancelled nor moved. *)
Lemma locked_frame (s : list step) :
  forall (w : world) (tm : Host.timer task),
    flag w = Some true -> pending w = [tm] ->
    now w + elapsed s < Host.due tm ->
    run func limit s w =
    Loop.World (Host.set_now (now w + elapsed s) (Loop.host w)) (Loop.vars w).
Proof.
  induction s as [| [d | c a] s IH]; intros w tm F P L.
  - simpl. rewrite Z.add_0_r. destruct w as [[n i p] v]. reflexivity.
  - simpl in *. pose proof (elapsed_nonneg s).
    rewrite (tick_early d w tm P) by lia.
    rewrite (IH _ tm) by (simpl; auto; lia).
    simpl. unfold Host.set_now. simpl. do 2 f_equal. lia.
  - simpl in *. rewrite call_locked by exact F. simpl.
    exact (IH w tm F P L).
Qed.

(** ** The invariant of a throttled wrapper *)

Lemma gap_nonneg : 0 <= gap.
Proof. unfold Throttle.gap. lia. Qed.


Lemma inv_fresh (u : U) : inv 0 (fresh u).
Proof.
  unfold Throttle.inv, Throttle.settled. simpl.
  repeat split; try lia; intros e [].
Qed.

Lemma inv_intro (lo : Z) (w : world) :
  settled w -> spaced gap (log w) -> lo <= now w ->
  (forall e, In e (log w) -> lo <= at_ms e <= now w) -> inv lo w.
Proof. intros. unfold Throttle.inv. auto. Qed.

Lemma inv_step (lo : Z) (w : world) (s : step) :
  inv lo w -> inv lo (do_step func limit w s).
Proof.
  pose proof gap_nonneg as G.
  intros (S & Sp & Lo & B). unfold Throttle.settled in S.
  destruct (pending w) as [| tm [| tm' p]] eqn:P; [| | contradiction].
  - (* idle *)
    destruct S as (F & Old). destruct s as [d | c a]; simpl.
    + rewrite (tick_idle d w P). apply inv_intro; simpl.
      * unfold Throttle.settled. simpl. rewrite P. split; [exact F |].
        intros x Hx. specialize (Old x Hx). lia.
      * exact Sp.
      * lia.
      * intros x Hx. specialize (B x Hx). lia.
    + rewrite (call_idle c a w F). rewrite P. apply inv_intro; simpl.
      * unfold Throttle.settled. simpl. repeat split; lia.
      * split; [| exact Sp]. intros x Hx. exact (Old x Hx).
      * exact Lo.
      * intros x [<- | Hx]; simpl; [lia | exact (B x Hx)].
  - (* locked *)
    destruct S as (F & Due & Last).
    destruct (log w) as [| e rest] eqn:L; [contradiction |].
    destruct s as [d | c a]; simpl.
    + destruct (Z.lt_ge_cases (now w + Z.max 0 d) (Host.due tm)) as [E | R].
      * rewrite (tick_early d w tm P E). apply inv_intro; simpl.
        -- unfold Throttle.settled. simpl. rewrite P, L.
           repeat split; [exact F | lia | exact Last].
        -- rewrite L. exact Sp.
        -- lia.
        -- rewrite L. intros x Hx. specialize (B x Hx). lia.
      * rewrite (tick_release d w tm P R). apply inv_intro; simpl.
        -- unfold Throttle.settled. simpl. split; [reflexivity |].
           rewrite L. intros x [<- | Hx]; [lia |].
           destruct Sp as (Sp & _). specialize (Sp x Hx). lia.
        -- rewrite L. exact Sp.
        -- lia.
        -- rewrite L. intros x Hx. specialize (B x Hx). lia.
    + rewrite (call_locked c a w F). simpl. apply inv_intro.
      * unfold Throttle.settled. rewrite P, L. auto.
      * rewrite L. exact Sp.
      * exact Lo.
      * rewrite L. exact B.
Qed.

Lemma inv_run (lo : Z) (s : list step) :
  forall w : world, inv lo w -> inv lo (run func limit s w).
Proof.
  induction s as [| x s IH]; intros w I; [exact I |].
  simpl. apply IH, inv_step, I.
Qed.





Lemma inv_locked (lo : Z) (w : world) :
  inv lo w -> flag w = Some true ->
  exists tm e rest,
    pending w = [tm] /\ log w = e :: rest /\
    Host.due tm = at_ms e + gap /\ now w <= Host.due tm.
Proof.
  intros (S & _) F. unfold Throttle.settled in S.
  destruct (pending w) as [| tm [| tm' p]]; [| | contradiction].
  - destruct S as (T & _). rewrite F in T. discriminate.
  - destruct S as (_ & D & L).
    destruct (log w) as [| e rest]; [contradiction |].
    exists tm, e, rest. auto.
Qed.

(** After a tick no pending timer is due any more: the rounds granted
    by [Loop.advance] were enough. *)
Lemma throttle_tick_settles (lo d : Z) (w : world) :
  inv lo w ->
  forall tm, In tm (pending (tick d w)) -> now (tick d w) < Host.due tm.
Proof.
  intros (S & _). unfold Throttle.settled in S.
  destruct (pending w) as [| tm [| tm' p]] eqn:P; [| | contradiction].
  - rewrite (tick_idle d w P). simpl. rewrite P. intros tm [].
  - destruct (Z.lt_ge_cases (now w + Z.max 0 d) (Host.due tm)) as [E | R].
    + rewrite (tick_early d w tm P E). simpl. rewrite P.
      intros x [<- | []]. exact E.
    + rewrite (tick_release d w tm P R). simpl. intros x [].
Qed.

(** ** What the spacing of the log gives *)


Lemma filter_none (f : invocation -> bool) (l : list invocation) :
  (forall x, In x l -> f x = false) -> filter f l = [].
Proof.
  induction l as [| e l IH]; intros H; simpl; [reflexivity |].
  rewrite (H e (or_introl eq_refl)). apply IH.
  intros x Hx. apply H. right. exact Hx.
Qed.

Lemma spaced_window (g a : Z) (l : list invocation) :
  spaced g l -> (length (filter (within a g) l) <= 1)%nat.
Proof.
  induction l as [| e l IH]; simpl; [lia |].
  intros (H & Sp). destruct (within a g e) eqn:W.
  - rewrite filter_none; [simpl; lia |].
    intros x Hx. specialize (H x Hx). unfold within in *.
    apply andb_true_iff in W. destruct W as (W1 & W2).
    apply Z.leb_le in W1. apply Z.ltb_lt in W2.
    apply andb_false_iff. left. apply Z.leb_gt. lia.
  - exact (IH Sp).
Qed.


(** Timers of a throttled wrapper never invoke the callback. *)
Lemma run_due_log (fuel : nat) (t0 : Z) :
  forall w : world,
    log (Loop.run_due exec fuel t0 w) = log w /\
    user (Loop.vars (Loop.run_due exec fuel t0 w)) = user (Loop.vars w).
Proof.
  induction fuel as [| fuel IH]; intros w; simpl; [auto |].
  destruct (Host.next_due t0 (Loop.host w)) as [tm |]; [| auto].
  destruct (IH (exec (Host.job tm)
                     (Loop.World (Host.take tm (Loop.host w)) (Loop.vars w))))
    as (E1 & E2).
  rewrite E1, E2. destruct (Host.job tm). auto.
Qed.

Lemma tick_log (d : Z) (w : world) :
  log (tick d w) = log w /\
  user (Loop.vars (tick d w)) = user (Loop.vars w).
Proof. unfold tick, Loop.advance. simpl. apply run_due_log. Qed.

(** Every invocation in the log stems from a call of the script, with
    that call's receiver and arguments. *)
Lemma log_from_script (s : list step) :
  forall (w : world) (e : invocation),
    In e (log (run func limit s w)) ->
    In e (log w) \/ In (Call (receiver e) (arguments e)) s.
Proof.
  induction s as [| [d | c a] s IH]; intros w e He; simpl in *.
  - left. exact He.
  - destruct (IH _ _ He) as [H | H]; [| right; right; exact H].
    left. rewrite (proj1 (tick_log d w)) in H. exact H.
  - destruct (IH _ _ He) as [H | H]; [| right; right; exact H].
    unfold throttled in H. destruct (not_flag (flag w)); simpl in H.
    + destruct H as [<- | H]; [right; left; reflexivity | left; exact H].
    + left. exact H.
Qed.


(** ** The lemmas behind the main results *)




End ThrottleFacts.

(** * The debounced wrapper *)

Section DebounceFacts.
Import Loop Debounce.
Context {U : Type}.
Variable func : callback U.
Variable wait : Z.

Local Abbreviation world := (Debounce.world U).
Local Abbreviation quiet := (Z.max 0 wait).

Lemma d_keeps_self (tm : Host.timer task) :
  Host.keeps (Host.tid tm) tm = false.
Proof. unfold Host.keeps. rewrite Nat.eqb_refl. reflexivity. Qed.

Lemma cleared (w : world) :
  armed w ->
  pending (World (Host.clearTimeout (handle w) (host w)) (vars w)) = [].
Proof.
  unfold armed. destruct w as [[n i p] [t u l]]. simpl.
  destruct p as [| tm [| tm' p]]; [| | contradiction].
  - intros _. destruct t; reflexivity.
  - intros (-> & _). simpl. rewrite d_keeps_self. reflexivity.
Qed.

Lemma d_call (c : value) (a : list value) (w : world) :
  armed w -> debounced wait c a w = (VUndefined, rearmed wait a w).
Proof.
  intros A. pose proof (cleared w A) as C.
  unfold debounced, rearmed, Host.setTimeout. simpl in *.
  rewrite C. destruct (handle w); reflexivity.
Qed.

Lemma d_tick_idle (d : Z) (w : world) :
  pending w = [] -> tick func d w = later d w.
Proof. intros P. unfold tick, advance. rewrite P. reflexivity. Qed.

Lemma d_tick_early (d : Z) (w : world) (tm : Host.timer task) :
  pending w = [tm] -> now w + Z.max 0 d < Host.due tm ->
  tick func d w = later d w.
Proof.
  intros P L. unfold tick, advance. rewrite P. simpl.
  unfold Host.next_due. rewrite P. simpl. unfold Host.is_due.
  destruct (Z.leb_spec (Host.due tm) (now w + Z.max 0 d)); [lia |].
  reflexivity.
Qed.

Lemma d_tick_fire (d : Z) (w : world) (tm : Host.timer task) :
  pending w = [tm] -> handle w = Some (Host.tid tm) ->
  now w <= Host.due tm -> Host.due tm <= now w + Z.max 0 d ->
  tick func d w =
  World (Host.Make (now w + Z.max 0 d) (Host.next_id (host w)) [])
        (Closure (handle w)
                 (snd (func VUndefined
                            match Host.job tm with Later a => a end
                            (state w)))
                 (Invoked (Host.due tm) VUndefined
                          match Host.job tm with Later a => a end
                  :: log w)).
Proof.
  intros P T N L. unfold tick, advance. rewrite P. simpl.
  unfold Host.next_due. rewrite P. simpl. unfold Host.is_due.
  destruct (Z.leb_spec (Host.due tm) (now w + Z.max 0 d)); [| lia].
  simpl. destruct (Host.job tm) as [a]. unfold exec, Host.take. simpl.
  rewrite P, T. simpl. rewrite d_keeps_self. simpl.
  rewrite (Z.max_r _ (Host.due tm)) by exact N. reflexivity.
Qed.



(** ** The invariant of a debounced wrapper *)

Lemma d_inv_fresh (u : U) : inv (fresh u).
Proof. split; [exact I | intros tm []]. Qed.

Lemma d_inv_rearmed (a : list value) (w : world) : inv (rearmed wait a w).
Proof.
  split.
  - unfold armed. simpl. split; [reflexivity | lia].
  - simpl. intros tm [<- | []]. simpl. lia.
Qed.

Lemma d_inv_later (d : Z) (w : world) (tm : Host.timer task) :
  inv w -> pending w = [tm] -> now w + Z.max 0 d < Host.due tm ->
  inv (later d w).
Proof.
  intros (A & F) P L. unfold armed in A. rewrite P in A. split.
  - unfold armed. simpl. rewrite P. split; [apply A | lia].
  - exact F.
Qed.

Lemma d_inv_step (w : world) (s : step) :
  inv w -> inv (do_step func wait w s).
Proof.
  intros Iw. pose proof Iw as (A & F).
  destruct s as [d | c a]; [simpl | unfold do_step].
  - unfold armed in A.
    destruct (pending w) as [| tm [| tm' p]] eqn:P; [| | contradiction].
    + rewrite (d_tick_idle d w P). split.
      * unfold armed. simpl. rewrite P. exact I.
      * simpl. rewrite P. intros tm [].
    + destruct A as (T & N).
      destruct (Z.lt_ge_cases (now w + Z.max 0 d) (Host.due tm)) as [E | R].
      * rewrite (d_tick_early d w tm P E).
        apply (d_inv_later d w tm Iw P E).
      * rewrite (d_tick_fire d w tm P T N R). split.
        -- exact I.
        -- intros tm' [].
  - rewrite (d_call c a w A). apply d_inv_rearmed.
Qed.

Lemma d_inv_run (s : list step) :
  forall w : world, inv w -> inv (run func wait s w).
Proof.
  induction s as [| x s IH]; intros w Iw; [exact Iw |].
  simpl. apply IH, d_inv_step, Iw.
Qed.

Lemma d_one_pending (w : world) : inv w -> (length (pending w) <= 1)%nat.
Proof.
  intros (A & _). unfold armed in A.
  destruct (pending w) as [| tm [| tm' p]]; simpl; [lia | lia | contradiction].
Qed.

(** A call removes whatever timer was pending: the one timer left is
    the one it has just scheduled, under a fresh handle. *)
Lemma d_call_cancels (c : value) (a : list value) (w : world) :
  inv w ->
  forall tm, In tm (pending w) ->
             ~ In tm (pending (snd (debounced wait c a w))).
Proof.
  intros (A & F) tm Hin. rewrite (d_call c a w A). simpl.
  intros [E | []]. specialize (F tm Hin). rewrite <- E in F. simpl in F. lia.
Qed.

(** After a tick no pending timer is due any more: the rounds granted
    by [Loop.advance] were enough. *)
Lemma debounce_tick_settles (d : Z) (w : world) :
  inv w ->
  forall tm, In tm (pending (tick func d w)) ->
             now (tick func d w) < Host.due tm.
Proof.
  intros (A & _). unfold armed in A.
  destruct (pending w) as [| tm [| tm' p]] eqn:P; [| | contradiction].
  - rewrite (d_tick_idle d w P). simpl. rewrite P. intros tm [].
  - destruct A as (T & N).
    destruct (Z.lt_ge_cases (now w + Z.max 0 d) (Host.due tm)) as [E | R].
    + rewrite (d_tick_early d w tm P E). simpl. rewrite P.
      intros x [<- | []]. exact E.
    + rewrite (d_tick_fire d w tm P T N R). simpl. intros x [].
Qed.

(** ** A burst *)




(** ** Where the log comes from *)





End DebounceFacts.

(** * Main results on the two wrappers *)

Section ThrottleResults.
Import Loop Throttle.
Context {U : Type}.
Variable func : callback U.



End ThrottleResults.



Section DebounceResults.
Import Loop Debounce.
Context {U : Type}.
Variable func : callback U.


End DebounceResults.


(** * Results that concern both wrappers *)

Section BothWrappers.
Import Loop.
Context {U : Type}.
Variable func : callback U.


(** C7: a debounced wrapper never has more than one timer pending:
    each call first clears the pending one and then schedules its
    own.  A throttled wrapper cancels nothing: while it is locked its
    one timer stays as it is whatever calls arrive, and when that
    timer falls due, a fixed interval after the invocation that took
    the lock, the lock is released. *)
Theorem one_pending_timer (u : U) :
  (forall (wait : Z) (script : list step),
      let w := Debounce.run func wait script (Debounce.fresh u) in
      (length (pending w) <= 1)%nat /\
      Host.pending (Host.clearTimeout (Debounce.handle w) (host w)) = [] /\
      forall (c : value) (a : list value),
        pending (snd (Debounce.debounced wait c a w))
        = [Host.Timer (Host.next_id (host w)) (now w + Z.max 0 wait)
                      (Debounce.Later a)] /\
        forall tm, In tm (pending w) ->
                   ~ In tm (pending (snd (Debounce.debounced wait c a w)))) /\
  (forall (limit : Z) (script : list step),
      let w := Throttle.run func limit script (Throttle.fresh u) in
      Throttle.flag w = Some true ->
      exists (tm : Host.timer Throttle.task) (e : invocation)
             (rest : list invocation),
        pending w = [tm] /\
        Throttle.log w = e :: rest /\
        Host.due tm = at_ms e + Z.max 0 limit /\
        (forall s : list step,
            now w + elapsed s < Host.due tm ->
            pending (Throttle.run func limit s w) = [tm] /\
            Throttle.flag (Throttle.run func limit s w) = Some true) /\
        (forall (s : list step) (d : Z),
            now w + elapsed s < Host.due tm ->
            Host.due tm <= now w + elapsed s + Z.max 0 d ->
            Throttle.flag (Throttle.run func limit (s ++ [Tick d]) w)
            = Some false /\
            pending (Throttle.run func limit (s ++ [Tick d]) w) = [])).
Proof.
  split.
  - intros wait script w.
    pose proof (d_inv_run func wait script _ (d_inv_fresh u)) as Iw.
    fold w in Iw.
    split; [apply d_one_pending; exact Iw |].
    split; [exact (cleared w (proj1 Iw)) |].
    intros c a. split.
    + rewrite (d_call wait c a w (proj1 Iw)). reflexivity.
    + apply d_call_cancels. exact Iw.
  - intros limit script w F.
    pose proof (inv_run func limit 0 script _ (inv_fresh limit u)) as Iw.
    fold w in Iw.
    destruct (inv_locked limit 0 w Iw F) as (tm & e & rest & P & L & D & _).
    exists tm, e, rest.
    split; [exact P |]. split; [exact L |]. split; [exact D |]. split.
    + intros s H. rewrite (locked_frame func limit s w tm F P H). simpl.
      auto.
    + intros s d H1 H2. rewrite run_app.
      rewrite (locked_frame func limit s w tm F P H1).
      change (Throttle.run func limit [Tick d] ?x) with (Throttle.tick d x).
      erewrite tick_release; [simpl; auto | exact P | simpl; lia].
Qed.

(** C10: a call of either wrapper evaluates to [undefined].  What the
    callback returns reaches nobody: replacing its return values
    changes no run.  A call of the debounced wrapper does not even
    invoke the callback. *)
Theorem wrappers_return_undefined (c : value) (a : list value) :
  (forall (limit : Z) (w : Throttle.world U),
      fst (Throttle.throttled func limit c a w) = VUndefined) /\
  (forall (wait : Z) (w : Debounce.world U),
      fst (Debounce.debounced wait c a w) = VUndefined /\
      Debounce.log (snd (Debounce.debounced wait c a w)) = Debounce.log w /\
      Debounce.state (snd (Debounce.debounced wait c a w))
      = Debounce.state w) /\
  (forall (ret : value -> list value -> U -> value) (limit : Z)
          (script : list step) (w : Throttle.world U),
      Throttle.run (fun x y z => (ret x y z, snd (func x y z))) limit script w
      = Throttle.run func limit script w) /\
  (forall (ret : value -> list value -> U -> value) (wait : Z)
          (script : list step) (w : Debounce.world U),
      Debounce.run (fun x y z => (ret x y z, snd (func x y z))) wait script w
      = Debounce.run func wait script w).
Proof.
  split.
  { intros limit w. unfold Throttle.throttled.
    destruct (Throttle.not_flag (Throttle.flag w)); reflexivity. }
  split.
  { intros wait w. repeat split. }
  split.
  - intros ret limit script w. reflexivity.
  - intros ret wait script w. reflexivity.
Qed.

End BothWrappers.


(** An instance: calls at 20 and 50 ms do not keep a lock taken at 0
    from clearing at 100 ms. *)
Lemma one_pending_timer_witness :
  Throttle.flag
    (Throttle.run counter 100
       ([Tick 20; Call VNull []; Tick 30; Call VNull []] ++ [Tick 50])
       (Throttle.run counter 100 [Call (VObject 1) []] (Throttle.fresh 0%nat)))
  = Some false.
Proof.
  destruct (one_pending_timer counter 0%nat) as (_ & T).
  destruct (T 100 [Call (VObject 1) []] eq_refl)
    as (tm & e & rest & P & L & D & _ & Clear).
  injection P as <-.
  apply (Clear [Tick 20; Call VNull []; Tick 30; Call VNull []] 50).
  - simpl. lia.
  - simpl. lia.
Defined.


(** * The key matcher: the buffer is a sliding window *)

Section KonamiFacts.
Import Konami.
Local Open Scope nat_scope.

Lemma last_n_short (n : nat) (l : list string) :
  length l <= n -> last_n n l = l.
Proof.
  intros H. unfold last_n.
  replace (length l - n) with 0 by lia. reflexivity.
Qed.

Lemma last_n_length (n : nat) (l : list string) :
  length (last_n n l) = Nat.min n (length l).
Proof. unfold last_n. rewrite length_skipn. lia. Qed.

(** Dropping the head of a list that is one too long keeps its last
    [n] elements. *)
Lemma tl_is_last_n (n : nat) (l : list string) :
  length l = S n -> tl l = last_n n l.
Proof.
  intros H. unfold last_n. rewrite H.
  replace (S n - n) with 1 by lia.
  destruct l; reflexivity.
Qed.

(** A single [shift] is enough to clamp a buffer that was within
    bounds before the [push]. *)
Lemma push_shift_window (buf : list string) (key : string) :
  length buf <= 10 -> push_shift buf key = last_n 10 (buf ++ [key]).
Proof.
  intros H. unfold push_shift.
  assert (L : length (buf ++ [key]) = S (length buf))
    by (rewrite length_app; simpl; lia).
  destruct (Nat.ltb_spec 10 (length (buf ++ [key]))) as [Hgt | Hle].
  - apply tl_is_last_n. lia.
  - symmetry. apply last_n_short. exact Hle.
Qed.

Lemma last_n_snoc (n : nat) (l : list string) (k : string) :
  last_n (S n) (l ++ [k]) = last_n n l ++ [k].
Proof.
  unfold last_n. rewrite length_app. simpl length.
  replace (length l + 1 - S n) with (length l - n) by lia.
  rewrite skipn_app.
  replace (length l - n - length l) with 0 by lia.
  reflexivity.
Qed.

Lemma last_n_last_n_snoc (l : list string) (k : string) :
  last_n 10 (last_n 10 l ++ [k]) = last_n 10 (l ++ [k]).
Proof.
  rewrite (last_n_snoc 9 l k).
  destruct (Nat.le_gt_cases (length l) 9) as [Hs | Hl].
  - rewrite (last_n_short 10 l), (last_n_short 9 l) by lia.
    apply last_n_short. rewrite length_app. simpl. lia.
  - rewrite (last_n_snoc 9).
    f_equal. unfold last_n. rewrite length_skipn, skipn_skipn.
    f_equal. lia.
Qed.

Lemma push_shift_length (buf : list string) (key : string) :
  length buf <= 10 -> length (push_shift buf key) <= 10.
Proof.
  intros H. rewrite push_shift_window by exact H.
  rewrite last_n_length. lia.
Qed.

Lemma feed_snoc (buf : list string) (keys : list string) (k : string) :
  feed buf (keys ++ [k]) =
  (fst (keydown (fst (feed buf keys)) k),
   snd (feed buf keys) ++ [snd (keydown (fst (feed buf keys)) k)]).
Proof.
  revert buf. induction keys as [| a keys IH]; intros buf.
  - reflexivity.
  - simpl. rewrite IH. reflexivity.
Qed.

(** After any stream, the buffer holds the last ten keys of it. *)
Lemma buffer_is_window (keys : list string) :
  buffer_after keys = last_n 10 keys.
Proof.
  induction keys as [| k keys IH] using rev_ind.
  - reflexivity.
  - unfold buffer_after in *. rewrite feed_snoc. simpl.
    rewrite IH, push_shift_window.
    + apply last_n_last_n_snoc.
    + rewrite last_n_length. lia.
Qed.

Lemma signals_snoc (keys : list string) (k : string) :
  signals (keys ++ [k]) =
  signals keys ++ [String.eqb (join (last_n 10 (keys ++ [k]))) target].
Proof.
  unfold signals. rewrite feed_snoc. simpl. f_equal. f_equal.
  fold (buffer_after keys). rewrite buffer_is_window.
  rewrite push_shift_window by (rewrite last_n_length; lia).
  rewrite last_n_last_n_snoc. reflexivity.
Qed.

Lemma signals_length (keys : list string) :
  length (signals keys) = length keys.
Proof.
  induction keys as [| k keys IH] using rev_ind.
  - reflexivity.
  - rewrite signals_snoc, !length_app, IH. reflexivity.
Qed.

(** C3: from the empty buffer, after every event of any stream the
    buffer has at most ten elements; each event is the deterministic
    transition append, trim to the last ten (the oldest goes first),
    compare. *)
Theorem konami_buffer_bounded (keys : list string) :
  buffer_after [] = [] /\
  length (buffer_after keys) <= 10 /\
  buffer_after keys = last_n 10 keys /\
  forall k : string,
    feed [] (keys ++ [k]) =
    (last_n 10 (buffer_after keys ++ [k]),
     signals keys ++
     [String.eqb (join (last_n 10 (buffer_after keys ++ [k]))) target]).
Proof.
  split; [reflexivity |].
  split; [rewrite buffer_is_window, last_n_length; lia |].
  split; [apply buffer_is_window |].
  intros k. rewrite feed_snoc. unfold keydown. simpl.
  fold (buffer_after keys). fold (signals keys).
  rewrite push_shift_window
    by (rewrite buffer_is_window, last_n_length; lia).
  reflexivity.
Qed.

Local Open Scope string_scope.

(** ** Comparing joined text: what a replaced key can and cannot do *)

Lemma append_empty_r (x : string) : x ++ "" = x.
Proof. induction x as [| c x IH]; simpl; [reflexivity | now rewrite IH]. Qed.

Lemma append_length (x y : string) :
  String.length (x ++ y) = String.length x + String.length y.
Proof. induction x as [| c x IH]; simpl; [reflexivity | now rewrite IH]. Qed.

Lemma prefix_of_append (p : string) :
  forall x s r : string,
    x ++ s = p ++ r -> String.length s <= String.length r ->
    prefix p x = true.
Proof.
  induction p as [| c p IH]; intros x s r E L.
  - destruct x; reflexivity.
  - destruct x as [| c' x].
    + simpl in E. subst s. simpl in L. rewrite append_length in L. lia.
    + simpl in E. injection E as -> E. simpl.
      destruct (ascii_dec c c) as [_ | N]; [| congruence].
      exact (IH _ _ _ E L).
Qed.

Lemma stuck_mid (p r x s : string) :
  prefix p x = false -> String.length s <= String.length r ->
  String.eqb (x ++ s) (p ++ r) = false.
Proof.
  intros P L. destruct (String.eqb_spec (x ++ s) (p ++ r)) as [E | _].
  - rewrite (prefix_of_append p x s r E L) in P. discriminate.
  - reflexivity.
Qed.

Lemma stuck_end (p r x : string) :
  prefix p x = false -> String.eqb x (p ++ r) = false.
Proof.
  intros P. rewrite <- (append_empty_r x) at 1.
  apply stuck_mid; [exact P | simpl; lia].
Qed.

Lemma append_cancel_r (s : string) :
  forall x p : string, x ++ s = p ++ s -> x = p.
Proof.
  induction x as [| c x IH]; intros p E.
  - destruct p as [| c' p]; [reflexivity |].
    apply (f_equal String.length) in E. simpl in E.
    rewrite append_length in E. lia.
  - destruct p as [| c' p].
    + apply (f_equal String.length) in E. simpl in E.
      rewrite append_length in E. lia.
    + simpl in E. injection E as -> E. f_equal. exact (IH _ E).
Qed.

Lemma full_window (p x s : string) :
  x <> p -> String.eqb (x ++ s) (p ++ s) = false.
Proof.
  intros N. destruct (String.eqb_spec (x ++ s) (p ++ s)) as [E | _].
  - elim N. exact (append_cancel_r s x p E).
  - reflexivity.
Qed.


Lemma full_window_end (p x : string) :
  x <> p -> String.eqb x p = false.
Proof. intros N. apply String.eqb_neq. exact N. Qed.

(** Rewrites every comparison that is stuck on the replacement key
    [x], where [p] is the key it stands in for. *)
Ltac stuck_false p :=
  repeat match goal with
  | |- context [String.eqb (?x ++ ?s) ?t] =>
      let r := eval vm_compute in
                 (substring (String.length p) (String.length t) t) in
      change t with (p ++ r);
      rewrite (stuck_mid p r x s) by (assumption || (vm_compute; lia))
  | H : prefix p ?x = false |- context [String.eqb ?x ?t] =>
      let r := eval vm_compute in
                 (substring (String.length p) (String.length t) t) in
      change t with (p ++ r);
      rewrite (stuck_end p r x H)
  end.

Lemma altered_signals (i : nat) (x : string) :
  i < 10 -> prefix (nth i pattern "") x = false ->
  signals (replace_at i x pattern) = repeat false 10.
Proof.
  intros Hi P.
  do 10 (destruct i as [| i];
         [cbn in P; unfold signals; cbn;
          match type of P with prefix ?p _ = false => stuck_false p end;
          reflexivity |]).
  lia.
Qed.

Lemma altered_full_window (i : nat) (x : string) :
  i < 10 -> x <> nth i pattern "" ->
  nth 9 (signals (replace_at i x pattern)) true = false.
Proof.
  intros Hi N.
  do 9 (destruct i as [| i];
        [cbn in N; unfold signals; cbn;
         match goal with
         | |- String.eqb (x ++ ?s) ?t = false =>
             match type of N with
             | _ <> ?p => change t with (p ++ s); exact (full_window p x s N)
             end
         end |]).
  destruct i as [| i]; [| lia].
  cbn in N. unfold signals. cbn. exact (full_window_end _ _ N).
Qed.

Lemma signal_of_last_event (pre : list string) (k : string) :
  nth (length pre) (signals (pre ++ [k])) false =
  String.eqb (join (last_n 10 (pre ++ [k]))) target.
Proof.
  rewrite signals_snoc.
  rewrite app_nth2 by (rewrite signals_length; lia).
  rewrite signals_length, Nat.sub_diag. reflexivity.
Qed.

Lemma last_signal (l : list string) (k : string) :
  last (signals (l ++ [k])) false =
  String.eqb (join (last_n 10 (l ++ [k]))) target.
Proof. rewrite signals_snoc. apply last_last. Qed.

(** C4, as amended: the ten target keys in order give exactly one
    match signal.  With one key replaced by a different one, the
    tenth event never signals; and no event signals at all when the
    replacement does not begin with the key it stands in for. *)
Theorem konami_exact_or_altered :
  matches pattern = 1 /\
  (forall (i : nat) (x : string),
      i < 10 -> x <> nth i pattern "" ->
      nth 9 (signals (replace_at i x pattern)) true = false) /\
  (forall (i : nat) (x : string),
      i < 10 -> prefix (nth i pattern "") x = false ->
      matches (replace_at i x pattern) = 0).
Proof.
  split; [reflexivity |].
  split; [exact altered_full_window |].
  intros i x Hi P. unfold matches.
  rewrite (altered_signals i x Hi P). reflexivity.
Qed.

(** An instance: the fourth key replaced by Enter. *)
Lemma konami_exact_or_altered_witness :
  nth 9 (signals (replace_at 3 "Enter" pattern)) true = false /\
  matches (replace_at 3 "Enter" pattern) = 0.
Proof.
  split.
  - apply (proj1 (proj2 konami_exact_or_altered) 3 "Enter").
    + lia.
    + discriminate.
  - apply (proj2 (proj2 konami_exact_or_altered) 3 "Enter").
    + lia.
    + reflexivity.
Defined.

(** C4 as stated fails: replace the first key by one whose text is the
    whole target and the very first event signals a match. *)
Lemma konami_altered_can_match :
  (0 < 10 /\ target <> nth 0 pattern "" /\
   matches (replace_at 0 target pattern) = 1) /\
  ~ (forall (i : nat) (x : string),
        i < 10 -> x <> nth i pattern "" ->
        matches (replace_at i x pattern) = 0).
Proof.
  assert (C : 0 < 10 /\ target <> nth 0 pattern "" /\
              matches (replace_at 0 target pattern) = 1).
  { split; [lia |]. split; [discriminate | reflexivity]. }
  split; [exact C |].
  intros H. destruct C as (Hi & N & M).
  rewrite (H 0 target Hi N) in M. discriminate.
Qed.

(** C8: the branch that signals a match leaves the buffer as the trim
    step produced it.  After a matching event the buffer is the window
    of the last ten keys (not empty, its text the target), and every
    later event signals exactly when the window of the last ten keys
    of the whole stream reads as the target again; such re-matches
    occur. *)
Theorem konami_match_keeps_buffer (pre : list string) (k : string) :
  nth (length pre) (signals (pre ++ [k])) false = true ->
  fst (keydown (buffer_after pre) k) = push_shift (buffer_after pre) k /\
  buffer_after (pre ++ [k]) = last_n 10 (pre ++ [k]) /\
  buffer_after (pre ++ [k]) <> [] /\
  join (buffer_after (pre ++ [k])) = target /\
  (forall (more : list string) (k' : string),
      last (signals ((pre ++ [k]) ++ more ++ [k'])) false = true <->
      join (last_n 10 ((pre ++ [k]) ++ more ++ [k'])) = target) /\
  matches (pattern ++ pattern) = 2 /\
  signals [""; "ArrowUp"; "ArrowUp"; "ArrowDown"; "ArrowDown"; "ArrowLeft";
           "ArrowRight"; "ArrowLeft"; "ArrowRight"; "ba"; ""] =
  (repeat false 9 ++ [true; true])%list.
Proof.
  intros M. rewrite signal_of_last_event in M.
  apply String.eqb_eq in M.
  split; [reflexivity |].
  split; [apply buffer_is_window |].
  split.
  { rewrite buffer_is_window. intros E. rewrite E in M. discriminate. }
  split; [rewrite buffer_is_window; exact M |].
  split.
  { intros more k'. rewrite app_assoc, last_signal.
    apply String.eqb_eq. }
  split; reflexivity.
Qed.

(** An instance: the ten target keys. *)
Lemma konami_match_keeps_buffer_witness :
  buffer_after (removelast pattern ++ ["a"]) = pattern /\
  join (buffer_after (removelast pattern ++ ["a"])) = target.
Proof.
  assert (M : nth (length (removelast pattern))
                  (signals (removelast pattern ++ ["a"])) false = true)
    by reflexivity.
  destruct (konami_match_keeps_buffer (removelast pattern) "a" M)
    as (_ & B & _ & J & _).
  split; [rewrite B; reflexivity | exact J].
Defined.

(** C9: the comparison is on the joined text, so a stream of ten keys
    that differs from the ten target keys element by element can
    still signal a match. *)
Theorem konami_join_is_not_elementwise :
  let keys := ["Arrow"; "Up"; "ArrowUp"; "ArrowDown"; "ArrowDown";
               "ArrowLeft"; "ArrowRight"; "ArrowLeft"; "ArrowRight"; "ba"] in
  length keys = 10 /\
  length pattern = 10 /\
  join pattern = target /\
  keys <> pattern /\
  join keys = target /\
  signals keys = (repeat false 9 ++ [true])%list /\
  exists other : list string,
    length other = 10 /\ other <> pattern /\ matches other = 1.
Proof.
  intros keys.
  assert (N : keys <> pattern) by discriminate.
  repeat (split; [first [reflexivity | exact N] |]).
  exists keys. repeat split; [exact N].
Qed.

End KonamiFacts.

(** * More on the two wrappers *)

Section ThrottleMore.
Import Loop Throttle.
Context {U : Type}.
Variable func : callback U.
Variable limit : Z.

Local Abbreviation world := (Throttle.world U).

Lemma replay_step (u : U) (w : world) (s : step) :
  state w = replay func (log w) u ->
  state (do_step func limit w s) = replay func (log (do_step func limit w s)) u.
Proof.
  intros R. destruct s as [d | c a]; unfold do_step.
  - destruct (tick_log d w) as (L & S). rewrite L, S. exact R.
  - unfold throttled. destruct (not_flag (flag w)); simpl; [| exact R].
    rewrite R. reflexivity.
Qed.

Lemma replay_run (u : U) (s : list step) :
  forall w : world,
    state w = replay func (log w) u ->
    state (run func limit s w) = replay func (log (run func limit s w)) u.
Proof.
  induction s as [| x s IH]; intros w R; [exact R |].
  simpl. apply IH, replay_step, R.
Qed.

Lemma log_grows (s : list step) :
  forall w : world,
    (length (log (run func limit s w)) <= length (log w) + calls_in s)%nat.
Proof.
  induction s as [| [d | c a] s IH]; intros w; simpl.
  - lia.
  - specialize (IH (tick d w)). rewrite (proj1 (tick_log d w)) in IH. exact IH.
  - specialize (IH (snd (throttled func limit c a w))).
    unfold throttled in *. destruct (not_flag (flag w)); simpl in *; lia.
Qed.

End ThrottleMore.

Section ThrottleExtras.
Import Loop Throttle.
Context {U : Type}.
Variable func : callback U.

(** X1: the state a throttled callback works on is the result of running
    the callback on the logged invocations, oldest first, and on
    nothing else; there are never more invocations than calls. *)
Theorem throttle_state_is_replay (limit : Z) (u : U) (script : list step) :
  state (run func limit script (fresh u))
  = replay func (log (run func limit script (fresh u))) u /\
  (length (log (run func limit script (fresh u))) <= calls_in script)%nat.
Proof.
  split.
  - apply replay_run. reflexivity.
  - apply (log_grows func limit script (fresh u)).
Qed.

(** X2: a call that arrives while the wrapper is locked is lost for
    good: whatever happens afterwards, every invocation added to the
    log stems from a later call, and if only time passes nothing is
    invoked at all. *)
Theorem throttle_drops_for_good (limit : Z) (u : U) (before : list step)
        (c : value) (a : list value) :
  flag (run func limit before (fresh u)) = Some true ->
  (forall (after : list step) (e : invocation),
      In e (log (run func limit (Call c a :: after)
                     (run func limit before (fresh u)))) ->
      In e (log (run func limit before (fresh u))) \/
      In (Call (receiver e) (arguments e)) after) /\
  (forall ds : list Z,
      log (run func limit (Call c a :: map Tick ds)
               (run func limit before (fresh u)))
      = log (run func limit before (fresh u)) /\
      state (run func limit (Call c a :: map Tick ds)
                 (run func limit before (fresh u)))
      = state (run func limit before (fresh u))).
Proof.
  intros F. set (w := run func limit before (fresh u)) in *.
  assert (D : run func limit [Call c a] w = w).
  { simpl. rewrite (call_locked func limit c a w F). reflexivity. }
  split.
  - intros after e He.
    change (Call c a :: after) with ([Call c a] ++ after) in He.
    rewrite run_app, D in He.
    exact (log_from_script func limit after w e He).
  - intros ds.
    change (Call c a :: map Tick ds) with ([Call c a] ++ map Tick ds).
    rewrite run_app, D. clear D F. generalize w. clear w.
    induction ds as [| d ds IH]; intros w; [split; reflexivity |].
    simpl. destruct (IH (tick d w)) as (L & S).
    change (fold_left (do_step func limit) (map Tick ds) (tick d w))
      with (run func limit (map Tick ds) (tick d w)).
    rewrite L, S. exact (tick_log d w).
Qed.

End ThrottleExtras.

Lemma throttle_drops_for_good_witness :
  Throttle.log
    (Throttle.run counter 100
       (Call (VObject 2) [VNumber 2] :: map Tick [50; 500; 5000])
       (Throttle.run counter 100 [Call (VObject 1) [VNumber 1]; Tick 30]
                     (Throttle.fresh 0%nat)))
  = [Invoked 0 (VObject 1) [VNumber 1]].
Proof.
  assert (F : Throttle.flag
                (Throttle.run counter 100 [Call (VObject 1) [VNumber 1]; Tick 30]
                              (Throttle.fresh 0%nat)) = Some true)
    by reflexivity.
  destruct (throttle_drops_for_good counter 100 0%nat
              [Call (VObject 1) [VNumber 1]; Tick 30]
              (VObject 2) [VNumber 2] F) as (_ & T).
  destruct (T [50; 500; 5000]) as (L & _). rewrite L. reflexivity.
Defined.

Section DebounceMore.
Import Loop Debounce.
Context {U : Type}.
Variable func : callback U.
Variable wait : Z.

Local Abbreviation world := (Debounce.world U).

Lemma d_replay_due (u : U) (fuel : nat) (t0 : Z) :
  forall w : world,
    state w = replay func (log w) u ->
    state (run_due (exec func) fuel t0 w)
    = replay func (log (run_due (exec func) fuel t0 w)) u.
Proof.
  induction fuel as [| fuel IH]; intros w R; simpl; [exact R |].
  destruct (Host.next_due t0 (host w)) as [tm |]; [| exact R].
  apply IH. destruct (Host.job tm) as [a]. simpl. rewrite R. reflexivity.
Qed.

Lemma d_replay_step (u : U) (w : world) (s : step) :
  state w = replay func (log w) u ->
  state (do_step func wait w s)
  = replay func (log (do_step func wait w s)) u.
Proof.
  intros R. destruct s as [d | c a].
  - simpl. unfold tick, advance. simpl. apply d_replay_due. exact R.
  - exact R.
Qed.

Lemma d_potential_step (w : world) (s : step) :
  inv w ->
  (length (log (do_step func wait w s))
   + length (pending (do_step func wait w s))
   <= length (log w) + length (pending w)
      + match s with Call _ _ => 1 | Tick _ => 0 end)%nat.
Proof.
  intros Iw. pose proof Iw as (A & _). destruct s as [d | c a]; unfold do_step.
  - unfold armed in A.
    destruct (pending w) as [| tm [| tm' p]] eqn:P; [| | contradiction].
    + rewrite (d_tick_idle func d w P). simpl. rewrite P. simpl. lia.
    + destruct A as (T & N).
      destruct (Z.lt_ge_cases (now w + Z.max 0 d) (Host.due tm)) as [E | R].
      * rewrite (d_tick_early func d w tm P E). simpl. rewrite P. simpl. lia.
      * rewrite (d_tick_fire func d w tm P T N R). simpl. lia.
  - rewrite (d_call wait c a w A). simpl. lia.
Qed.

Lemma d_potential_run (s : list step) :
  forall w : world,
    inv w ->
    (length (log (run func wait s w)) + length (pending (run func wait s w))
     <= length (log w) + length (pending w) + calls_in s)%nat.
Proof.
  induction s as [| x s IH]; intros w Iw; [simpl; lia |].
  change (run func wait (x :: s) w)
    with (run func wait s (do_step func wait w x)).
  specialize (IH _ (d_inv_step func wait w x Iw)).
  pose proof (d_potential_step w x Iw).
  destruct x; simpl calls_in; lia.
Qed.

Lemma d_replay_run (u : U) (s : list step) :
  forall w : world,
    state w = replay func (log w) u ->
    state (run func wait s w) = replay func (log (run func wait s w)) u.
Proof.
  induction s as [| x s IH]; intros w R; [exact R |].
  simpl. apply IH, d_replay_step, R.
Qed.


End DebounceMore.

Section DebounceExtras.
Import Loop Debounce.
Context {U : Type}.
Variable func : callback U.

(** X3: the state a debounced callback works on is the result of
    running the callback, without a receiver, on the logged invocations,
    oldest first, and on nothing else; invocations and the pending timer
    together never outnumber the calls. *)
Theorem debounce_state_is_replay (wait : Z) (u : U) (script : list step) :
  state (run func wait script (fresh u))
  = replay func (log (run func wait script (fresh u))) u /\
  (length (log (run func wait script (fresh u)))
   + length (pending (run func wait script (fresh u)))
   <= calls_in script)%nat.
Proof.
  split.
  - apply d_replay_run. reflexivity.
  - apply (d_potential_run func wait script (fresh u)), d_inv_fresh.
Qed.


End DebounceExtras.


(** * The mouse log *)

Section MouseFacts.
Import Loop MouseLog.
Local Open Scope nat_scope.

Lemma last_entries_all (n : nat) (l : entries) :
  length l <= n -> last_entries n l = l.
Proof.
  intros H. unfold last_entries.
  replace (length l - n) with 0 by lia. reflexivity.
Qed.

Lemma last_entries_length (n : nat) (l : entries) :
  length (last_entries n l) = Nat.min n (length l).
Proof. unfold last_entries. rewrite length_skipn. lia. Qed.

Lemma last_entries_tl (n : nat) (l : entries) :
  n < length l -> last_entries n (tl l) = last_entries n l.
Proof.
  intros H. destruct l as [| x l]; [reflexivity |].
  unfold last_entries. simpl tl. simpl length in *.
  replace (S (length l) - n) with (S (length l - n)) by lia. reflexivity.
Qed.

(** The loop stops on its own: the rounds granted are enough. *)
Lemma drop_oldest_last (fuel : nat) :
  forall l : entries,
    length l - 10 <= fuel -> drop_oldest fuel l = last_entries 10 l.
Proof.
  induction fuel as [| fuel IH]; intros l H; simpl.
  - symmetry. apply last_entries_all. lia.
  - destruct (Nat.ltb_spec 10 (length l)) as [G | G].
    + rewrite IH; [apply last_entries_tl; exact G |].
      destruct l; simpl in *; lia.
    + symmetry. apply last_entries_all. exact G.
Qed.

Lemma last_entries_app (n : nat) (a b : entries) :
  last_entries n (last_entries n a ++ b) = last_entries n (a ++ b).
Proof.
  unfold last_entries. rewrite !length_app, length_skipn.
  destruct (Nat.le_gt_cases (length a) n) as [S | L].
  - replace (length a - n) with 0 by lia. simpl. f_equal. lia.
  - rewrite !skipn_app, length_skipn, skipn_skipn.
    replace (length a - (length a - n) + length b - n
             + (length a - n)) with (length a + length b - n) by lia.
    replace (length a - (length a - n) + length b - n
             - (length a - (length a - n)))
      with (length a + length b - n - length a) by lia.
    reflexivity.
Qed.

Lemma add_entry (this : value) (args : list value) (log : entries) :
  snd (addMouseLogEntry this args log)
  = last_entries 10 (log ++ [nth 0 args VUndefined]).
Proof.
  unfold addMouseLogEntry. simpl. apply drop_oldest_last. lia.
Qed.

Lemma shown_cons (l : entries) (x : value) (r : entries) :
  shown (last_entries 10 (l ++ [x])) r = shown l (x :: r).
Proof.
  unfold shown. destruct r as [| y r]; [reflexivity |].
  rewrite last_entries_app, <- app_assoc. reflexivity.
Qed.

Lemma play_shows (ms : list mouse) :
  forall w : Throttle.world entries,
    Throttle.state (play ms w) = shown (Throttle.state w) (reported ms w).
Proof.
  induction ms as [| m ms IH]; intros w; [reflexivity |].
  change (play (m :: ms) w) with (play ms (handle w m)).
  rewrite IH. destruct m as [ev | ev | ev | d]; simpl reported.
  - simpl handle. unfold direct. cbn [Loop.vars Throttle.user].
    rewrite add_entry. apply shown_cons.
  - simpl handle. unfold direct. cbn [Loop.vars Throttle.user].
    rewrite add_entry. apply shown_cons.
  - unfold handle, Throttle.throttled.
    destruct (Throttle.not_flag (Throttle.flag w)); [| reflexivity].
    cbn [snd Loop.vars Throttle.user]. rewrite add_entry. apply shown_cons.
  - unfold handle. rewrite (proj2 (tick_log d w)). reflexivity.
Qed.

Lemma play_inv (ms : list mouse) :
  forall (lo : Z) (w : Throttle.world entries),
    Throttle.inv 100 lo w -> Throttle.inv 100 lo (play ms w).
Proof.
  induction ms as [| m ms IH]; intros lo w Iw; [exact Iw |].
  change (play (m :: ms) w) with (play ms (handle w m)).
  apply IH. destruct m as [ev | ev | ev | d].
  - exact Iw.
  - exact Iw.
  - exact (inv_step addMouseLogEntry 100 lo w
                    (Call mouseTarget [VObject ev]) Iw).
  - exact (inv_step addMouseLogEntry 100 lo w (Tick d) Iw).
Qed.

(** X5: [addMouseLogEntry] leaves the last ten of the old entries and
    the new one, whatever the length of the log before: at most ten
    entries, the new one last. *)
Theorem mouse_log_keeps_last_ten (this : value) (args : list value)
        (log : entries) :
  snd (addMouseLogEntry this args log)
  = last_entries 10 (log ++ [nth 0 args VUndefined]) /\
  length (snd (addMouseLogEntry this args log)) <= 10 /\
  last (snd (addMouseLogEntry this args log)) VNull = nth 0 args VUndefined.
Proof.
  rewrite add_entry. split; [reflexivity |].
  split; [rewrite last_entries_length; lia |].
  destruct (Nat.le_gt_cases (length log) 9) as [S | L].
  - rewrite last_entries_all by (rewrite length_app; simpl; lia).
    apply last_last.
  - unfold last_entries. rewrite length_app. simpl length.
    rewrite skipn_app.
    replace (length log + 1 - 10 - length log) with 0 by lia.
    simpl skipn. apply last_last.
Qed.

(** X6: on the page, whatever the mouse does, the log shows the last
    ten of the events reported: every [mouseenter] and [mouseleave],
    and the [mousemove]s that find the throttle idle, of which there is
    at most one in any 100 ms. *)
Theorem mouse_log_on_page (ms : list mouse) (log0 : entries) :
  Throttle.state (play ms (Throttle.fresh log0))
  = shown log0 (reported ms (Throttle.fresh log0)) /\
  (length log0 <= 10 ->
   length (Throttle.state (play ms (Throttle.fresh log0))) <= 10) /\
  (forall a : Z,
      length (filter (within a 100)
                     (Throttle.log (play ms (Throttle.fresh log0)))) <= 1).
Proof.
  split; [apply play_shows |]. split.
  - intros H. rewrite play_shows. simpl. unfold shown.
    destruct (reported ms (Throttle.fresh log0)); [exact H |].
    rewrite last_entries_length. lia.
  - intros a. apply spaced_window.
    apply (play_inv ms 0 (Throttle.fresh log0) (inv_fresh 100 log0)).
Qed.

End MouseFacts.

Lemma mouse_log_on_page_witness :
  Throttle.state
    (MouseLog.play
       [MouseLog.Enter 1; MouseLog.Move 2; MouseLog.Wait 10; MouseLog.Move 3;
        MouseLog.Wait 90; MouseLog.Move 4; MouseLog.Leave 5]
       (Throttle.fresh [VObject 0]))
  = [VObject 0; VObject 1; VObject 2; VObject 4; VObject 5].
Proof.
  destruct (mouse_log_on_page
              [MouseLog.Enter 1; MouseLog.Move 2; MouseLog.Wait 10;
               MouseLog.Move 3; MouseLog.Wait 90; MouseLog.Move 4;
               MouseLog.Leave 5] [VObject 0]) as (S & B & _).
  assert (L : (length (Throttle.state
                         (MouseLog.play
                            [MouseLog.Enter 1; MouseLog.Move 2;
                             MouseLog.Wait 10; MouseLog.Move 3;
                             MouseLog.Wait 90; MouseLog.Move 4;
                             MouseLog.Leave 5]
                            (Throttle.fresh [VObject 0]))) <= 10)%nat)
    by (apply B; simpl; lia).
  etransitivity; [exact S | reflexivity].
Defined.

(** * The effect of a Konami match *)

Section EggFacts.
Import Loop Egg.

Local Abbreviation bg w := (background (vars w)).
Local Abbreviation anim w := (animation (vars w)).

Lemma earliest_some (l : list (Host.timer task)) :
  l <> [] -> exists tm, Host.earliest l = Some tm.
Proof. destruct l as [| a l]; [congruence |]. simpl. eauto. Qed.

Lemma earliest_member (l : list (Host.timer task)) (tm : Host.timer task) :
  Host.earliest l = Some tm -> In tm l.
Proof.
  revert tm. induction l as [| a l IH]; intros tm; simpl; [discriminate |].
  destruct (Host.earliest l) as [b |].
  - intros [= <-]. unfold Host.earlier.
    destruct (Host.due b <? Host.due a);
      [right; apply IH; reflexivity | left; reflexivity].
  - intros [= <-]. left. reflexivity.
Qed.

Lemma next_due_some (t0 : Z) (h : Host.t task) (tm : Host.timer task) :
  In tm (Host.pending h) -> Host.due tm <= t0 ->
  exists tm', Host.next_due t0 h = Some tm'.
Proof.
  intros Hin D. apply earliest_some. intros E.
  assert (F : In tm (filter (Host.is_due t0) (Host.pending h))).
  { apply filter_In. split; [exact Hin |].
    unfold Host.is_due. apply Z.leb_le. exact D. }
  rewrite E in F. exact F.
Qed.

Lemma next_due_none (t0 : Z) (h : Host.t task) :
  Host.next_due t0 h = None ->
  forall tm, In tm (Host.pending h) -> t0 < Host.due tm.
Proof.
  intros N tm Hin. destruct (Z.lt_ge_cases t0 (Host.due tm)) as [L | G];
    [exact L |].
  destruct (next_due_some t0 h tm Hin G) as (tm' & E). congruence.
Qed.

Lemma take_shrinks (h : Host.t task) (tm : Host.timer task) :
  In tm (Host.pending h) ->
  (length (Host.pending (Host.take tm h)) < length (Host.pending h))%nat.
Proof.
  intros Hin. simpl. induction (Host.pending h) as [| a l IH];
    [contradiction |].
  simpl. destruct (Host.keeps (Host.tid tm) a) eqn:K.
  - destruct Hin as [-> | Hin].
    + unfold Host.keeps in K. rewrite Nat.eqb_refl in K. discriminate.
    + simpl. specialize (IH Hin). lia.
  - pose proof (filter_length_le (Host.keeps (Host.tid tm)) l). simpl. lia.
Qed.

(** Running due timers only ever clears the two style properties; the
    buffer and the count of alerts stay. *)
Lemma run_due_page (fuel : nat) (t0 : Z) :
  forall w : world,
    konamiCode (vars (run_due exec fuel t0 w)) = konamiCode (vars w) /\
    alerts (vars (run_due exec fuel t0 w)) = alerts (vars w) /\
    (run_due exec fuel t0 w = w \/
     (bg (run_due exec fuel t0 w) = EmptyString /\
      anim (run_due exec fuel t0 w) = EmptyString)).
Proof.
  induction fuel as [| fuel IH]; intros w; simpl; [auto |].
  destruct (Host.next_due t0 (host w)) as [tm |]; [| auto].
  destruct (Host.job tm). simpl.
  destruct (IH (World (Host.take tm (host w))
                      (Page (konamiCode (vars w)) "" "" (alerts (vars w)))))
    as (K & A & [E | B]).
  - rewrite E. simpl. auto.
  - rewrite K, A. simpl. auto.
Qed.

Lemma run_due_subset (fuel : nat) (t0 : Z) :
  forall (w : world) (tm : Host.timer task),
    In tm (pending (run_due exec fuel t0 w)) -> In tm (pending w).
Proof.
  induction fuel as [| fuel IH]; intros w tm Hin; simpl in Hin; [exact Hin |].
  destruct (Host.next_due t0 (host w)) as [t1 |]; [| exact Hin].
  apply IH in Hin. destruct (Host.job t1). simpl in Hin.
  apply filter_In in Hin. apply Hin.
Qed.

(** With a round for every pending timer, no due timer is left. *)
Lemma run_due_settles (fuel : nat) (t0 : Z) :
  forall w : world,
    (length (pending w) <= fuel)%nat ->
    forall tm, In tm (pending (run_due exec fuel t0 w)) -> t0 < Host.due tm.
Proof.
  induction fuel as [| fuel IH]; intros w L tm Hin; simpl in Hin.
  - destruct (pending w); [contradiction | simpl in L; lia].
  - destruct (Host.next_due t0 (host w)) as [t1 |] eqn:N.
    + apply (IH _) in Hin; [exact Hin |].
      destruct (Host.job t1). cbn [exec host vars].
      assert (H1 : In t1 (pending w)).
      { apply earliest_member in N. apply filter_In in N. apply N. }
      pose proof (take_shrinks (host w) t1 H1). lia.
    + exact (next_due_none t0 (host w) N tm Hin).
Qed.

Lemma egg_advance_settles (d : Z) (w : world) :
  forall tm, In tm (pending (advance exec d w)) ->
             now (advance exec d w) < Host.due tm.
Proof.
  intros tm Hin. unfold advance in *. simpl in *.
  exact (run_due_settles _ _ w (le_n _) tm Hin).
Qed.

(** A timer that falls due clears the style, whatever else is
    pending. *)
Lemma advance_restores (d : Z) (w : world) (tm : Host.timer task) :
  In tm (pending w) -> Host.due tm <= now w + Z.max 0 d ->
  bg (advance exec d w) = EmptyString /\
  anim (advance exec d w) = EmptyString.
Proof.
  intros Hin D. unfold advance. cbn [vars].
  destruct (pending w) as [| a l] eqn:P; [contradiction |].
  cbn [length run_due].
  destruct (next_due_some (now w + Z.max 0 d) (host w) tm) as (t1 & N);
    [rewrite P; exact Hin | exact D |].
  rewrite N. destruct (Host.job t1).
  match goal with
  | |- context [run_due exec ?f ?t ?x] =>
      destruct (run_due_page f t x) as (_ & _ & [E | B])
  end.
  - rewrite E. simpl. auto.
  - exact B.
Qed.

Lemma covered_loaded : covered loaded.
Proof.
  repeat split; auto. intros H. elim H. reflexivity.
Qed.

Lemma covered_step (w : world) (e : event) :
  covered w -> covered (handle w e).
Proof.
  intros (S & V & C). destruct e as [k | d]; unfold handle.
  - unfold keydown. destruct (snd (Konami.keydown (konamiCode (vars w)) k)).
    + split; [| split].
      * simpl. split; discriminate.
      * right. reflexivity.
      * intros _. exists (Host.Timer (Host.next_id (host w)) (now w + 5000)
                                     Restore).
        simpl. split; [apply in_or_app; right; left; reflexivity | lia].
    + split; [exact S | split; [exact V | exact C]].
  - unfold covered, advance.
    cbn [host vars Host.set_now Host.pending Host.now].
    destruct (run_due_page (length (pending w)) (now w + Z.max 0 d) w)
      as (_ & _ & [E | (B & A)]).
    + rewrite E. split; [exact S | split; [exact V |]].
      intros N. destruct (C N) as (tm & Hin & D).
      exists tm. split; [exact Hin |].
      assert (L : now w + Z.max 0 d < Host.due tm).
      { apply (run_due_settles (length (pending w)) _ w (le_n _)).
        rewrite E. exact Hin. }
      lia.
    + split; [| split].
      * rewrite B, A. split; reflexivity.
      * left. exact B.
      * intros N. elim N. exact B.
Qed.

Lemma covered_play (es : list event) :
  forall w : world, covered w -> covered (play es w).
Proof.
  induction es as [| e es IH]; intros w C; [exact C |].
  simpl. apply IH, covered_step, C.
Qed.

Lemma keydown_page (k : string) (w : world) :
  konamiCode (vars (keydown k w))
  = fst (Konami.keydown (konamiCode (vars w)) k) /\
  alerts (vars (keydown k w))
  = (alerts (vars w)
     + if snd (Konami.keydown (konamiCode (vars w)) k) then 1 else 0)%nat.
Proof.
  unfold keydown.
  destruct (snd (Konami.keydown (konamiCode (vars w)) k));
    cbn [vars konamiCode alerts]; split; try reflexivity; lia.
Qed.

Lemma play_follows_feed (es : list event) :
  forall w : world,
    konamiCode (vars (play es w))
    = fst (Konami.feed (konamiCode (vars w)) (keys_of es)) /\
    alerts (vars (play es w))
    = (alerts (vars w)
       + count_occ bool_dec
                   (snd (Konami.feed (konamiCode (vars w)) (keys_of es)))
                   true)%nat.
Proof.
  induction es as [| [k | d] es IH]; intros w.
  - simpl. split; [reflexivity | lia].
  - change (play (Key k :: es) w) with (play es (keydown k w)).
    destruct (IH (keydown k w)) as (K & A). rewrite K, A.
    destruct (keydown_page k w) as (K' & A'). rewrite K', A'.
    change (keys_of (Key k :: es)) with (k :: keys_of es).
    cbn [Konami.feed fst snd].
    split; [reflexivity |].
    destruct (snd (Konami.keydown (konamiCode (vars w)) k)).
    + rewrite count_occ_cons_eq by reflexivity. lia.
    + rewrite count_occ_cons_neq by discriminate. lia.
  - change (play (Pause d :: es) w) with (play es (advance exec d w)).
    destruct (IH (advance exec d w)) as (K & A). rewrite K, A.
    unfold advance. cbn [vars]. simpl keys_of.
    destruct (run_due_page (length (pending w)) (now w + Z.max 0 d) w)
      as (K' & A' & _).
    rewrite K', A'. split; reflexivity.
Qed.

(** X7: the pauses between keys do not matter to the matcher: after any
    events the buffer is that of the keys typed, and there has been one
    alert per match signal. *)
Theorem egg_follows_matcher (es : list event) :
  konamiCode (vars (play es loaded)) = Konami.buffer_after (keys_of es) /\
  alerts (vars (play es loaded)) = Konami.matches (keys_of es).
Proof.
  destruct (play_follows_feed es loaded) as (K & A). split; assumption.
Qed.

(** X8: the rainbow never stays.  The background is the rainbow or
    empty, together with the animation; while it is on, five seconds
    without a key clear it; and it is cleared as soon as any pending
    timer falls due, also the timer of an earlier match when a later
    match has set the rainbow anew. *)
Theorem egg_rainbow_is_cleared (es : list event) :
  (bg (play es loaded) = EmptyString \/ bg (play es loaded) = rainbow) /\
  (bg (play es loaded) = EmptyString <-> anim (play es loaded) = EmptyString) /\
  (forall d : Z,
      5000 <= d ->
      bg (advance exec d (play es loaded)) = EmptyString /\
      anim (advance exec d (play es loaded)) = EmptyString) /\
  (forall (tm : Host.timer task) (d : Z),
      In tm (pending (play es loaded)) ->
      Host.due tm <= now (play es loaded) + Z.max 0 d ->
      bg (advance exec d (play es loaded)) = EmptyString /\
      anim (advance exec d (play es loaded)) = EmptyString).
Proof.
  destruct (covered_play es loaded covered_loaded) as (S & V & C).
  split; [exact V |]. split; [exact S |]. split.
  - intros d D.
    destruct (string_dec (bg (play es loaded)) EmptyString) as [E | N].
    + (* nothing to clear: it stays clear *)
      unfold advance. cbn [vars].
      match goal with
      | |- context [run_due exec ?f ?t ?x] =>
          destruct (run_due_page f t x) as (_ & _ & [R | B])
      end.
      * rewrite R. split; [exact E | apply S; exact E].
      * exact B.
    + destruct (C N) as (tm & Hin & Due).
      apply (advance_restores d _ tm Hin). lia.
  - intros tm d Hin Due. exact (advance_restores d _ tm Hin Due).
Qed.

End EggFacts.

(** An instance: two matches three seconds apart; two seconds after the
    second one the rainbow is gone. *)
Lemma egg_rainbow_is_cleared_witness :
  Egg.background
    (Loop.vars
       (Loop.advance Egg.exec 2000
          (Egg.play (map Egg.Key Konami.pattern ++ [Egg.Pause 3000]
                     ++ map Egg.Key Konami.pattern) Egg.loaded)))
  = EmptyString /\
  Egg.background
    (Loop.vars
       (Egg.play (map Egg.Key Konami.pattern ++ [Egg.Pause 3000]
                  ++ map Egg.Key Konami.pattern) Egg.loaded))
  = Egg.rainbow.
Proof.
  split; [| vm_compute; reflexivity].
  destruct (egg_rainbow_is_cleared
              (map Egg.Key Konami.pattern ++ [Egg.Pause 3000]
               ++ map Egg.Key Konami.pattern)) as (_ & _ & _ & T).
  apply (T (Host.Timer 1 5000 Egg.Restore) 2000).
  - vm_compute. left. reflexivity.
  - vm_compute. discriminate.
Defined.

(** * Regular expressions: the matcher decides the language *)

Section RegexFacts.
Import Regex.

Lemma seq_denotes (a b : t) (s : JS.jstring) :
  denotes (Seq a b) s <->
  exists s1 s2, s = s1 ++ s2 /\ denotes a s1 /\ denotes b s2.
Proof.
  split.
  - intros H. inversion H; subst. eauto.
  - intros (s1 & s2 & -> & H1 & H2). constructor; assumption.
Qed.

Lemma alt_denotes (a b : t) (s : JS.jstring) :
  denotes (Alt a b) s <-> denotes a s \/ denotes b s.
Proof.
  split.
  - intros H. inversion H; subst; auto.
  - intros [H | H]; [apply DAltL | apply DAltR]; exact H.
Qed.

Lemma class_denotes (p : N -> bool) (s : JS.jstring) :
  denotes (Class p) s <-> exists c, s = [c] /\ p c = true.
Proof.
  split.
  - intros H. inversion H; subst. eauto.
  - intros (c & -> & P). constructor. exact P.
Qed.

Lemma nullable_denotes (r : t) : nullable r = true <-> denotes r [].
Proof.
  induction r as [| | p | a IHa b IHb | a IHa b IHb | a IHa]; simpl.
  - split; [discriminate | intros H; inversion H].
  - split; [constructor | reflexivity].
  - split; [discriminate | intros H; inversion H].
  - rewrite andb_true_iff, IHa, IHb, seq_denotes. split.
    + intros (Ha & Hb). exists [], []. auto.
    + intros (s1 & s2 & E & H1 & H2). symmetry in E.
      apply app_eq_nil in E. destruct E; subst. auto.
  - rewrite orb_true_iff, IHa, IHb, alt_denotes. reflexivity.
  - split; [constructor | reflexivity].
Qed.

(** A non-empty string of a starred expression starts with a non-empty
    string of the expression. *)
Lemma star_cons (a : t) (s : JS.jstring) :
  denotes (Star a) s ->
  forall (c : N) (s' : JS.jstring),
    s = c :: s' ->
    exists s1 s2, s' = s1 ++ s2 /\ denotes a (c :: s1) /\ denotes (Star a) s2.
Proof.
  intros H. remember (Star a) as r eqn:R. revert a R.
  induction H as [| | | | | a' | a' s1 s2 H1 _ H2 IH2];
    intros x R; try discriminate R.
  - intros c s' E. discriminate E.
  - injection R as ->. intros c s' E. destruct s1 as [| c1 s1].
    + simpl in E. exact (IH2 x eq_refl c s' E).
    + simpl in E. injection E as -> <-. exists s1, s2. auto.
Qed.

Lemma deriv_denotes (r : t) :
  forall (c : N) (s : JS.jstring),
    denotes (deriv c r) s <-> denotes r (c :: s).
Proof.
  induction r as [| | p | a IHa b IHb | a IHa b IHb | a IHa]; intros c s; simpl.
  - split; intros H; inversion H.
  - split; intros H; inversion H.
  - rewrite class_denotes. destruct (p c) eqn:P.
    + split.
      * intros H. inversion H; subst. exists c. auto.
      * intros (c' & [= <- ->] & _). constructor.
    + split.
      * intros H. inversion H.
      * intros (c' & [= <- ->] & P'). congruence.
  - assert (Fwd : denotes (Seq (deriv c a) b) s -> denotes (Seq a b) (c :: s)).
    { rewrite !seq_denotes. intros (s1 & s2 & -> & H1 & H2).
      apply IHa in H1. exists (c :: s1), s2. auto. }
    assert (Bwd : denotes (Seq a b) (c :: s) ->
                  denotes (Seq (deriv c a) b) s \/
                  (denotes a [] /\ denotes b (c :: s))).
    { rewrite !seq_denotes. intros (s1 & s2 & E & H1 & H2).
      destruct s1 as [| c1 s1].
      - right. simpl in E. subst. auto.
      - left. simpl in E. injection E as <- ->.
        exists s1, s2. split; [reflexivity |].
        split; [apply IHa; exact H1 | exact H2]. }
    destruct (nullable a) eqn:Na.
    + rewrite alt_denotes. split.
      * intros [H | H]; [exact (Fwd H) |].
        apply seq_denotes. exists [], (c :: s). split; [reflexivity |].
        split; [apply nullable_denotes; exact Na | apply IHb; exact H].
      * intros H. destruct (Bwd H) as [H1 | (_ & H2)].
        -- left. exact H1.
        -- right. apply IHb. exact H2.
    + split; [exact Fwd |].
      intros H. destruct (Bwd H) as [H1 | (H1 & _)]; [exact H1 |].
      apply nullable_denotes in H1. congruence.
  - rewrite !alt_denotes, IHa, IHb. reflexivity.
  - rewrite seq_denotes. split.
    + intros (s1 & s2 & -> & H1 & H2).
      apply IHa in H1. exact (DStarApp a (c :: s1) s2 H1 H2).
    + intros H. destruct (star_cons a (c :: s) H c s eq_refl)
        as (s1 & s2 & -> & H1 & H2).
      exists s1, s2. split; [reflexivity |].
      split; [apply IHa; exact H1 | exact H2].
Qed.

(** The matcher accepts exactly the strings of the expression. *)
Lemma test_denotes (s : JS.jstring) :
  forall r : t, test r s = true <-> denotes r s.
Proof.
  unfold test. induction s as [| c s IH]; intros r; simpl.
  - apply nullable_denotes.
  - rewrite IH. apply deriv_denotes.
Qed.

Lemma star_class (p : N -> bool) (s : JS.jstring) :
  denotes (Star (Class p)) s <-> forallb p s = true.
Proof.
  split.
  - intros H. remember (Star (Class p)) as r eqn:R.
    induction H as [| | | | | a' | a' s1 s2 H1 _ H2 IH2]; try discriminate.
    + reflexivity.
    + injection R as ->. apply class_denotes in H1.
      destruct H1 as (c & -> & P). simpl.
      apply andb_true_iff. split; [exact P | apply IH2; reflexivity].
  - induction s as [| c s IH]; simpl; intros H; [constructor |].
    apply andb_true_iff in H. destruct H as (Hc & Hs).
    apply (DStarApp (Class p) [c] s); [constructor; exact Hc | exact (IH Hs)].
Qed.

Lemma plus_class (p : N -> bool) (s : JS.jstring) :
  denotes (plus (Class p)) s <-> s <> [] /\ forallb p s = true.
Proof.
  unfold plus. rewrite seq_denotes. split.
  - intros (s1 & s2 & -> & H1 & H2). apply class_denotes in H1.
    destruct H1 as (c & -> & P). split; [discriminate |].
    simpl. apply andb_true_iff. split; [exact P |].
    apply star_class. exact H2.
  - intros (N & F). destruct s as [| c s]; [congruence |].
    simpl in F. apply andb_true_iff in F. destruct F as (Hc & Hs).
    exists [c], s. split; [reflexivity |].
    split; [constructor; exact Hc | apply star_class; exact Hs].
Qed.

Lemma char_denotes (c : N) (s : JS.jstring) :
  denotes (char c) s <-> s = [c].
Proof.
  unfold char. rewrite class_denotes. split.
  - intros (c' & -> & E). apply N.eqb_eq in E. subst. reflexivity.
  - intros ->. exists c. split; [reflexivity | apply N.eqb_refl].
Qed.

End RegexFacts.

(** * Trimming *)

Section TrimFacts.
Import JS.
Local Open Scope nat_scope.

Lemma trimStart_spaces (ws s : jstring) :
  forallb is_space ws = true -> trimStart (ws ++ s) = trimStart s.
Proof.
  induction ws as [| c ws IH]; simpl; intros H; [reflexivity |].
  apply andb_true_iff in H. destruct H as (Hc & Hws).
  rewrite Hc. exact (IH Hws).
Qed.

Lemma trimStart_nil (s : jstring) :
  trimStart s = [] <-> forallb is_space s = true.
Proof.
  induction s as [| c s IH]; simpl; [tauto |].
  destruct (is_space c); simpl; [exact IH |].
  split; discriminate.
Qed.

Lemma trimStart_head (s : jstring) (c : N) (t : jstring) :
  trimStart s = c :: t -> is_space c = false.
Proof.
  induction s as [| a s IH]; simpl; [discriminate |].
  destruct (is_space a) eqn:A; [exact IH |].
  intros [= <- _]. exact A.
Qed.

Lemma trimStart_fixed (c : N) (t : jstring) :
  is_space c = false -> trimStart (c :: t) = c :: t.
Proof. intros H. simpl. rewrite H. reflexivity. Qed.

Lemma trimStart_idem (s : jstring) : trimStart (trimStart s) = trimStart s.
Proof.
  destruct (trimStart s) as [| c t] eqn:E; [reflexivity |].
  apply trimStart_fixed. exact (trimStart_head s c t E).
Qed.

Lemma trimStart_app (s t : jstring) :
  trimStart s <> [] -> trimStart (s ++ t) = trimStart s ++ t.
Proof.
  induction s as [| c s IH]; simpl; [congruence |].
  destruct (is_space c); [exact IH | reflexivity].
Qed.

Lemma trimStart_snoc (x : jstring) (c : N) :
  is_space c = false -> exists y, trimStart (x ++ [c]) = y ++ [c].
Proof.
  intros H. induction x as [| a x IH]; simpl.
  - rewrite H. exists []. reflexivity.
  - destruct (is_space a); [exact IH |]. exists (a :: x). reflexivity.
Qed.

Lemma forallb_rev (p : N -> bool) (l : jstring) :
  forallb p (rev l) = forallb p l.
Proof.
  induction l as [| c l IH]; simpl; [reflexivity |].
  rewrite forallb_app, IH. simpl. rewrite andb_true_r. apply andb_comm.
Qed.

Lemma trimEnd_spaces (s ws : jstring) :
  forallb is_space ws = true -> trimEnd (s ++ ws) = trimEnd s.
Proof.
  intros H. unfold trimEnd. rewrite rev_app_distr.
  rewrite trimStart_spaces by (rewrite forallb_rev; exact H). reflexivity.
Qed.

Lemma trimEnd_idem (s : jstring) : trimEnd (trimEnd s) = trimEnd s.
Proof.
  unfold trimEnd. rewrite rev_involutive, trimStart_idem. reflexivity.
Qed.

Lemma trimEnd_keeps_head (c : N) (t : jstring) :
  is_space c = false -> exists u, trimEnd (c :: t) = c :: u.
Proof.
  intros H. unfold trimEnd. simpl rev.
  destruct (trimStart_snoc (rev t) c H) as (y & E). rewrite E.
  rewrite rev_app_distr. simpl. eauto.
Qed.

(** White space around a string does not survive [trim]. *)
Lemma trim_spaces (ws1 s ws2 : jstring) :
  forallb is_space ws1 = true -> forallb is_space ws2 = true ->
  trim (ws1 ++ s ++ ws2) = trim s.
Proof.
  intros H1 H2. unfold trim. rewrite trimStart_spaces by exact H1.
  destruct (trimStart s) as [| c t] eqn:E.
  - apply trimStart_nil in E.
    assert (F : trimStart (s ++ ws2) = []).
    { apply trimStart_nil. rewrite forallb_app, E, H2. reflexivity. }
    rewrite F. reflexivity.
  - rewrite trimStart_app by (rewrite E; discriminate).
    rewrite E. apply trimEnd_spaces. exact H2.
Qed.

Lemma trim_blank (s : jstring) :
  forallb is_space s = true -> trim s = [].
Proof.
  intros H. unfold trim. apply trimStart_nil in H. rewrite H. reflexivity.
Qed.

Lemma trim_idem (s : jstring) : trim (trim s) = trim s.
Proof.
  unfold trim at 1. unfold trim.
  destruct (trimStart s) as [| c t] eqn:E; [reflexivity |].
  pose proof (trimStart_head s c t E) as H.
  destruct (trimEnd_keeps_head c t H) as (u & K).
  rewrite K, (trimStart_fixed c u H), <- K. apply trimEnd_idem.
Qed.

Lemma trim_nil : trim [] = [].
Proof. reflexivity. Qed.

End TrimFacts.

(** * The validators of the form *)

Section FormFacts.
Import JS Form.
Local Open Scope nat_scope.

Lemma two_or_more_class (p : N -> bool) (s : jstring) :
  Regex.denotes (Regex.two_or_more (Regex.Class p)) s <->
  2 <= length s /\ forallb p s = true.
Proof.
  unfold Regex.two_or_more. rewrite seq_denotes. split.
  - intros (s1 & s2 & -> & H1 & H2).
    apply class_denotes in H1. destruct H1 as (c & -> & P).
    apply (plus_class p s2) in H2. destruct H2 as (N & F).
    destruct s2 as [| c2 s2]; [congruence |]. split; [simpl; lia |].
    simpl in *. rewrite P. exact F.
  - intros (L & F). destruct s as [| c [| c2 s]]; simpl in L; try lia.
    simpl in F. apply andb_true_iff in F. destruct F as (P & F).
    exists [c], (c2 :: s). split; [reflexivity |].
    split; [constructor; exact P |].
    apply plus_class. split; [discriminate | exact F].
Qed.

Lemma email_denotes (s : jstring) :
  Regex.denotes emailPattern s <->
  exists a b c : jstring,
    s = a ++ [64%N] ++ b ++ [46%N] ++ c /\
    a <> [] /\ b <> [] /\ c <> [] /\
    forallb plain a = true /\ forallb plain b = true /\
    forallb plain c = true.
Proof.
  unfold emailPattern. split.
  - intros H.
    apply seq_denotes in H. destruct H as (a & r1 & -> & Ha & H).
    apply seq_denotes in H. destruct H as (x & r2 & -> & Hx & H).
    apply seq_denotes in H. destruct H as (b & r3 & -> & Hb & H).
    apply seq_denotes in H. destruct H as (y & c & -> & Hy & Hc).
    apply char_denotes in Hx. apply char_denotes in Hy. subst x y.
    apply plus_class in Ha. apply plus_class in Hb. apply plus_class in Hc.
    exists a, b, c. tauto.
  - intros (a & b & c & -> & Na & Nb & Nc & Fa & Fb & Fc).
    apply Regex.DSeq; [apply plus_class; auto |].
    apply Regex.DSeq; [apply char_denotes; reflexivity |].
    apply Regex.DSeq; [apply plus_class; auto |].
    apply Regex.DSeq; [apply char_denotes; reflexivity |].
    apply plus_class; auto.
Qed.

Lemma plain_no_at (l : jstring) :
  forallb plain l = true -> count_occ N.eq_dec l 64%N = 0.
Proof.
  induction l as [| c l IH]; simpl; [reflexivity |].
  intros H. apply andb_true_iff in H. destruct H as (P & F).
  destruct (N.eq_dec c 64) as [-> | _]; [discriminate | exact (IH F)].
Qed.

Lemma plain_no_space (l : jstring) :
  forallb plain l = true -> forallb (fun c => negb (is_space c)) l = true.
Proof.
  induction l as [| c l IH]; simpl; [reflexivity |].
  intros H. apply andb_true_iff in H. destruct H as (P & F).
  unfold plain in P. apply andb_true_iff in P. destruct P as (P & _).
  rewrite P. exact (IH F).
Qed.

(** X9: [validateEmail] accepts exactly the strings whose trimmed text
    is a non-empty part, [@], a non-empty part, a dot and a non-empty
    part, the parts free of white space and of [@]. *)
Theorem email_accepted_exactly (e : jstring) :
  validateEmail e = true <->
  exists a b c : jstring,
    trim e = a ++ [64%N] ++ b ++ [46%N] ++ c /\
    a <> [] /\ b <> [] /\ c <> [] /\
    forallb plain a = true /\ forallb plain b = true /\
    forallb plain c = true.
Proof.
  unfold validateEmail. rewrite test_denotes. apply email_denotes.
Qed.

(** X10: what [validateEmail] never accepts: a text that, trimmed, has
    no [@] or more than one, has white space inside, or is shorter than
    five code units. *)
Theorem email_never_accepts (e : jstring) :
  validateEmail e = true ->
  count_occ N.eq_dec (trim e) 64%N = 1 /\
  forallb (fun c => negb (is_space c)) (trim e) = true /\
  5 <= length (trim e).
Proof.
  intros H. apply email_accepted_exactly in H.
  destruct H as (a & b & c & -> & Na & Nb & Nc & Fa & Fb & Fc).
  split; [| split].
  - rewrite !count_occ_app, (plain_no_at a Fa), (plain_no_at b Fb),
      (plain_no_at c Fc). reflexivity.
  - rewrite !forallb_app, (plain_no_space a Fa), (plain_no_space b Fb),
      (plain_no_space c Fc). reflexivity.
  - rewrite !length_app. simpl.
    destruct a; [congruence |]. destruct b; [congruence |].
    destruct c; [congruence |]. simpl. lia.
Qed.

(** X11: [validateName] accepts exactly the strings whose trimmed text
    has at least two code units, all ASCII letters or white space; its
    separate length test never decides anything. *)
Theorem name_accepted_exactly (n : jstring) :
  (validateName n = true <->
   2 <= length (trim n) /\ forallb letter_or_space (trim n) = true) /\
  validateName n = Regex.test namePattern (trim n).
Proof.
  assert (P : Regex.test namePattern (trim n) = true <->
              2 <= length (trim n) /\ forallb letter_or_space (trim n) = true).
  { rewrite test_denotes. apply two_or_more_class. }
  unfold validateName. split.
  - rewrite andb_true_iff, P, Nat.leb_le. tauto.
  - destruct (Regex.test namePattern (trim n)) eqn:T.
    + destruct P as (P & _). destruct (P eq_refl) as (L & _).
      apply Nat.leb_le in L. rewrite L. reflexivity.
    + apply andb_false_r.
Qed.

Lemma blank_rejected (s : jstring) :
  trim s = [] ->
  validateEmail s = false /\ validateName s = false /\
  validateMessage s = false.
Proof.
  intros E. unfold validateEmail, validateName, validateMessage.
  rewrite E. repeat split.
Qed.

(** X12: the three validators look at the trimmed text only: white
    space before and after the text changes no verdict, and a blank
    text is rejected by all three. *)
Theorem validators_ignore_outer_space (ws1 s ws2 : jstring) :
  forallb is_space ws1 = true -> forallb is_space ws2 = true ->
  validateEmail (ws1 ++ s ++ ws2) = validateEmail s /\
  validateName (ws1 ++ s ++ ws2) = validateName s /\
  validateMessage (ws1 ++ s ++ ws2) = validateMessage s /\
  validateEmail (ws1 ++ ws2) = false /\
  validateName (ws1 ++ ws2) = false /\
  validateMessage (ws1 ++ ws2) = false.
Proof.
  intros H1 H2. unfold validateEmail, validateName, validateMessage.
  rewrite (trim_spaces ws1 s ws2 H1 H2).
  repeat (split; [reflexivity |]).
  apply blank_rejected, trim_blank.
  rewrite forallb_app, H1, H2. reflexivity.
Qed.

Lemma rejected_some (v : jstring) (validate : jstring -> bool) :
  validate [] = false ->
  rejected (Some v) validate = negb (validate v).
Proof.
  intros H. unfold rejected. destruct v as [| c v]; [| reflexivity].
  simpl. rewrite H. reflexivity.
Qed.

Lemma empty_rejected :
  validateName [] = false /\ validateEmail [] = false /\
  validateMessage [] = false.
Proof. repeat split. Qed.


End FormFacts.

Section SubmitFacts.
Import JS Form.
Local Open Scope nat_scope.

Lemma accepted_field (v : option jstring) (validate : jstring -> bool) :
  validate [] = false ->
  (rejected v validate = false <-> exists s, v = Some s /\ validate s = true).
Proof.
  intros H. destruct v as [s |].
  - rewrite (rejected_some s validate H). split.
    + intros N. exists s. split; [reflexivity |].
      destruct (validate s); [reflexivity | discriminate].
    + intros (s' & [= <-] & V). rewrite V. reflexivity.
  - simpl. split; [discriminate | intros (s & E & _); discriminate].
Qed.

(** X14: the [submit] listener accepts exactly when all three fields are
    present and pass their validators (its tests for an empty field
    never decide anything for a text).  On success it alerts, resets
    the form, clears the three borders and logs two entries; on failure
    it logs one entry per rejected field, in the order name, email,
    message, and a closing one, and colours each field red or green by
    its own verdict. *)
Theorem submit_accepts_exactly (d : data) :
  (isValid (on_submit d) = true <->
   exists n e m : jstring,
     d = Data (Some n) (Some e) (Some m) /\
     validateName n = true /\ validateEmail e = true /\
     validateMessage m = true) /\
  (isValid (on_submit d) = true <-> errors (on_submit d) = []) /\
  alerted (on_submit d) = isValid (on_submit d) /\
  reset (on_submit d) = isValid (on_submit d) /\
  length (errors (on_submit d)) = failures d /\
  (isValid (on_submit d) = true ->
   length (logged (on_submit d)) = 2 /\
   nameBorder (on_submit d) = EmptyString /\
   emailBorder (on_submit d) = EmptyString /\
   messageBorder (on_submit d) = EmptyString) /\
  (isValid (on_submit d) = false ->
   logged (on_submit d)
   = errors (on_submit d)
     ++ [cross_mark ++ lit " Please fix validation errors and try again"] /\
   nameBorder (on_submit d)
   = (if rejected (name d) validateName then red else green) /\
   emailBorder (on_submit d)
   = (if rejected (email d) validateEmail then red else green) /\
   messageBorder (on_submit d)
   = (if rejected (message d) validateMessage then red else green)).
Proof.
  destruct empty_rejected as (En & Ee & Em).
  pose proof (accepted_field (name d) validateName En) as An.
  pose proof (accepted_field (email d) validateEmail Ee) as Ae.
  pose proof (accepted_field (message d) validateMessage Em) as Am.
  assert (V : isValid (on_submit d) = true <->
              rejected (name d) validateName = false /\
              rejected (email d) validateEmail = false /\
              rejected (message d) validateMessage = false).
  { unfold on_submit.
    destruct (rejected (name d) validateName),
      (rejected (email d) validateEmail),
      (rejected (message d) validateMessage); simpl; intuition discriminate. }
  split.
  { rewrite V, An, Ae, Am. split.
    - intros ((n & Hn & Vn) & (e & He & Ve) & (m & Hm & Vm)).
      exists n, e, m. destruct d as [dn de dm]. simpl in *. subst. auto.
    - intros (n & e & m & -> & Vn & Ve & Vm). simpl.
      split; [exists n; auto |]. split; [exists e; auto | exists m; auto]. }
  unfold failures, on_submit.
  destruct (rejected (name d) validateName),
    (rejected (email d) validateEmail),
    (rejected (message d) validateMessage); simpl;
    repeat split; try reflexivity; try discriminate;
    intros H; try discriminate H; repeat split.
Qed.

(** An instance: a form that passes, and one with a name too short. *)
Lemma submit_accepts_exactly_witness :
  Form.isValid
    (Form.on_submit
       (Form.Data (Some (JS.lit "Ada")) (Some (JS.lit "a@b.c"))
                  (Some (JS.lit "Ten letters and more"))))
  = true /\
  Form.nameBorder
    (Form.on_submit
       (Form.Data (Some (JS.lit "A")) None (Some (JS.lit "Ten letters and more"))))
  = Form.red.
Proof.
  split.
  - apply (proj1 (submit_accepts_exactly _)).
    exists (JS.lit "Ada"), (JS.lit "a@b.c"), (JS.lit "Ten letters and more").
    repeat split.
  - destruct (submit_accepts_exactly
                (Form.Data (Some (JS.lit "A")) None
                           (Some (JS.lit "Ten letters and more"))))
      as (_ & _ & _ & _ & _ & _ & F).
    destruct (F eq_refl) as (_ & B & _). exact B.
Defined.

(** X15: the mini email field gives the verdict of [validateEmail]:
    green exactly for the texts [validateEmail] accepts, the grey
    prompt exactly for blank texts, red for the rest. *)
Theorem mini_email_agrees (v : jstring) :
  (snd (on_mini_email_input v) = green <-> validateEmail v = true) /\
  (snd (on_mini_email_input v) = grey <-> trim v = []) /\
  (snd (on_mini_email_input v) = red <->
   trim v <> [] /\ validateEmail v = false).
Proof.
  assert (M : validateMiniEmail (trim v) = validateEmail v).
  { unfold validateMiniEmail, validateEmail. rewrite trim_idem. reflexivity. }
  unfold on_mini_email_input. rewrite M.
  destruct (trim v) as [| c t] eqn:E.
  - destruct (blank_rejected v E) as (B & _). rewrite B. simpl.
    repeat split; try discriminate; try reflexivity.
    intros (N & _). congruence.
  - simpl. destruct (validateEmail v); simpl;
      repeat split; try discriminate; try reflexivity.
    intros (_ & H). discriminate.
Qed.

End SubmitFacts.

Section KeyboardFacts.
Import JS Keyboard.
Local Open Scope nat_scope.

Lemma but_last_length (s : jstring) : length (but_last s) = length s - 1.
Proof.
  unfold but_last. induction s as [| c s IH]; [reflexivity |].
  destruct s as [| c' s]; [reflexivity |].
  change (removelast (c :: c' :: s)) with (c :: removelast (c' :: s)).
  simpl length in *. rewrite IH. lia.
Qed.

(** X16: the [keydown] listener of the keyboard field never shortens
    the text.  It cancels the default action for Backspace only, and
    what it does instead leaves the field 17 code units longer (18 if
    it was empty): the last code unit goes, the note comes. *)
Theorem keyboard_keydown_never_shortens (key : jstring) (code : nat)
        (v : jstring) :
  length v <= length (value (on_keydown key code v)) /\
  lastKeyText (on_keydown key code v) = key /\
  (prevented (on_keydown key code v) = true <-> key = lit "Backspace") /\
  (key = lit "Backspace" ->
   value (on_keydown key code v) = but_last v ++ lit " (Backspace used) " /\
   length (value (on_keydown key code v)) = length v - 1 + 18) /\
  (key = lit "Enter" ->
   value (on_keydown key code v) = v ++ lit " (Enter pressed!) ") /\
  (key <> lit "Backspace" -> key <> lit "Enter" ->
   value (on_keydown key code v) = v).
Proof.
  unfold on_keydown.
  destruct (list_eq_dec N.eq_dec key (lit "Enter")) as [E | E].
  - subst. cbn [value prevented lastKeyText]. rewrite length_app.
    change (length (lit " (Enter pressed!) ")) with 18.
    repeat split; try discriminate; try congruence; lia.
  - destruct (list_eq_dec N.eq_dec key (lit "Backspace")) as [B | B].
    + subst. cbn [value prevented lastKeyText].
      rewrite length_app, but_last_length.
      change (length (lit " (Backspace used) ")) with 18.
      repeat split; try congruence; lia.
    + cbn [value prevented lastKeyText].
      repeat split; try congruence; try lia; discriminate.
Qed.

End KeyboardFacts.

(** An instance: Backspace on a text of three letters. *)
Lemma keyboard_keydown_never_shortens_witness :
  Keyboard.value (Keyboard.on_keydown (JS.lit "Backspace") 8 (JS.lit "abc"))
  = JS.lit "ab (Backspace used) ".
Proof.
  destruct (keyboard_keydown_never_shortens (JS.lit "Backspace") 8
                                            (JS.lit "abc"))
    as (_ & _ & _ & B & _).
  destruct (B eq_refl) as (E & _). rewrite E. reflexivity.
Defined.
(** An instance: [a@b.c] is accepted and has one [@]. *)
Lemma email_never_accepts_witness :
  count_occ N.eq_dec (JS.trim (JS.lit " a@b.c ")) 64%N = 1%nat.
Proof.
  assert (V : Form.validateEmail (JS.lit " a@b.c ") = true) by reflexivity.
  exact (proj1 (email_never_accepts (JS.lit " a@b.c ") V)).
Defined.

(** An instance: a name between a tab and two spaces. *)
Lemma validators_ignore_outer_space_witness :
  Form.validateName ([9%N] ++ JS.lit "Ada" ++ JS.lit "  ")
  = Form.validateName (JS.lit "Ada").
Proof.
  assert (H1 : forallb JS.is_space [9%N] = true) by reflexivity.
  assert (H2 : forallb JS.is_space (JS.lit "  ") = true) by reflexivity.
  destruct (validators_ignore_outer_space [9%N] (JS.lit "Ada") (JS.lit "  ")
                                          H1 H2) as (_ & N & _).
  exact N.
Defined.


(** An instance: the shortest address. *)
Lemma email_accepted_exactly_witness :
  exists a b c : JS.jstring,
    JS.trim (JS.lit "a@b.c") = a ++ [64%N] ++ b ++ [46%N] ++ c /\
    a <> [] /\ b <> [] /\ c <> [] /\
    forallb Form.plain a = true /\ forallb Form.plain b = true /\
    forallb Form.plain c = true.
Proof.
  apply (proj1 (email_accepted_exactly (JS.lit "a@b.c"))). reflexivity.
Defined.

(** An instance: a name between spaces. *)
Lemma name_accepted_exactly_witness :
  Form.validateName (JS.lit " Ada ") = true.
Proof.
  apply (proj2 (proj1 (name_accepted_exactly (JS.lit " Ada ")))).
  split; [vm_compute; lia | reflexivity].
Defined.

(** An instance: an address between spaces. *)
Lemma mini_email_agrees_witness :
  snd (Form.on_mini_email_input (JS.lit " a@b.c ")) = Form.green.
Proof.
  apply (proj2 (proj1 (mini_email_agrees (JS.lit " a@b.c ")))). reflexivity.
Defined.

(** * The timer queue in general *)

Section QueueFacts.
Context {task : Type}.

Lemma earliest_mem (l : list (Host.timer task)) (tm : Host.timer task) :
  Host.earliest l = Some tm -> In tm l.
Proof.
  revert tm. induction l as [| a l IH]; intros tm; simpl; [discriminate |].
  destruct (Host.earliest l) as [b |].
  - intros [= <-]. unfold Host.earlier.
    destruct (Host.due b <? Host.due a);
      [right; apply IH; reflexivity | left; reflexivity].
  - intros [= <-]. left. reflexivity.
Qed.

Lemma earliest_none (l : list (Host.timer task)) :
  Host.earliest l = None -> l = [].
Proof. destruct l; [reflexivity | discriminate]. Qed.

Lemma earliest_min (l : list (Host.timer task)) (tm : Host.timer task) :
  Host.earliest l = Some tm ->
  forall x, In x l -> Host.due tm <= Host.due x.
Proof.
  revert tm. induction l as [| a l IH]; intros tm; simpl; [discriminate |].
  destruct (Host.earliest l) as [b |] eqn:E.
  - intros [= <-] x [<- | Hx]; unfold Host.earlier;
      destruct (Z.ltb_spec (Host.due b) (Host.due a)); try lia.
    + specialize (IH b eq_refl x Hx). lia.
    + specialize (IH b eq_refl x Hx). lia.
  - intros [= <-] x [<- | Hx]; [lia |].
    apply earliest_none in E. subst l. contradiction.
Qed.

(** The timer picked is pending and due, and no pending timer is due
    before it. *)
Lemma next_due_picks (t0 : Z) (h : Host.t task) (tm : Host.timer task) :
  Host.next_due t0 h = Some tm ->
  In tm (Host.pending h) /\ Host.due tm <= t0 /\
  forall x, In x (Host.pending h) -> Host.due tm <= Host.due x.
Proof.
  intros N. unfold Host.next_due in N.
  pose proof (earliest_mem _ _ N) as M. apply filter_In in M.
  destruct M as (M & D). unfold Host.is_due in D. apply Z.leb_le in D.
  split; [exact M |]. split; [exact D |].
  intros x Hx. destruct (Z.le_gt_cases (Host.due x) t0) as [L | G]; [| lia].
  apply (earliest_min _ _ N). apply filter_In. split; [exact Hx |].
  unfold Host.is_due. apply Z.leb_le. exact L.
Qed.

Lemma next_due_nothing (t0 : Z) (h : Host.t task) :
  Host.next_due t0 h = None ->
  forall x, In x (Host.pending h) -> t0 < Host.due x.
Proof.
  intros N x Hx. unfold Host.next_due in N. apply earliest_none in N.
  destruct (Z.lt_ge_cases t0 (Host.due x)) as [L | G]; [exact L |].
  assert (F : In x (filter (Host.is_due t0) (Host.pending h))).
  { apply filter_In. split; [exact Hx |].
    unfold Host.is_due. apply Z.leb_le. lia. }
  rewrite N in F. contradiction.
Qed.

Lemma keeps_other (a b : Host.timer task) :
  Host.tid a <> Host.tid b -> Host.keeps (Host.tid b) a = true.
Proof.
  intros H. unfold Host.keeps. apply negb_true_iff. apply Nat.eqb_neq. exact H.
Qed.

Lemma keeps_same (a b : Host.timer task) :
  Host.tid a = Host.tid b -> Host.keeps (Host.tid b) a = false.
Proof.
  intros H. unfold Host.keeps. rewrite H, Nat.eqb_refl. reflexivity.
Qed.

Lemma same_tid (l : list (Host.timer task)) (a b : Host.timer task) :
  NoDup (map Host.tid l) -> In a l -> In b l ->
  Host.tid a = Host.tid b -> a = b.
Proof.
  induction l as [| c l IH]; simpl; [contradiction |].
  intros ND [-> | Ha] [-> | Hb] E.
  - reflexivity.
  - inversion ND as [| ? ? Nin _]; subst. elim Nin.
    rewrite E. apply in_map. exact Hb.
  - inversion ND as [| ? ? Nin _]; subst. elim Nin.
    rewrite <- E. apply in_map. exact Ha.
  - inversion ND; subst. auto.
Qed.

(** With distinct handles, a timer stays in the queue when another one
    is taken out. *)
Lemma take_keeps (h : Host.t task) (tm x : Host.timer task) :
  In x (Host.pending h) -> Host.tid x <> Host.tid tm ->
  In x (Host.pending (Host.take tm h)).
Proof.
  intros Hx Ne. simpl. apply filter_In. split; [exact Hx |].
  apply keeps_other. exact Ne.
Qed.

Lemma nodup_snoc (A : Type) (l : list A) (a : A) :
  NoDup l -> ~ In a l -> NoDup (l ++ [a]).
Proof.
  induction l as [| c l IH]; simpl; intros ND N.
  - constructor; [intros [] | constructor].
  - inversion ND as [| ? ? Nin ND']; subst. constructor.
    + intros H. apply in_app_or in H. destruct H as [H | [-> | []]]; tauto.
    + apply IH; tauto.
Qed.

Lemma take_subset (h : Host.t task) (tm x : Host.timer task) :
  In x (Host.pending (Host.take tm h)) -> In x (Host.pending h).
Proof. simpl. intros H. apply filter_In in H. apply H. Qed.

Lemma filter_tids (f : Host.timer task -> bool) (l : list (Host.timer task)) :
  NoDup (map Host.tid l) -> NoDup (map Host.tid (filter f l)).
Proof.
  induction l as [| a l IH]; simpl; intros ND; [constructor |].
  inversion ND as [| ? ? Nin ND']; subst.
  destruct (f a); simpl; [| exact (IH ND')].
  constructor; [| exact (IH ND')].
  intros Hin. apply Nin. apply in_map_iff in Hin.
  destruct Hin as (x & E & Hx). apply filter_In in Hx.
  apply in_map_iff. exists x. tauto.
Qed.

End QueueFacts.

(** * The dynamic list *)

Section ListFacts.
Import Loop DynamicList.

Local Abbreviation kids w := (children (vars w)).
Local Abbreviation count w := (itemCount (vars w)).
Local Abbreviation round tm v :=
  (exec (Host.job tm) (World (Host.take tm (host v)) (vars v))).

Lemma remove_subset (x y : item) (l : list item) :
  In y (remove item_eq_dec x l) -> In y l.
Proof. intros H. apply in_remove in H. apply H. Qed.

Lemma remove_twice (x : item) (l : list item) :
  remove item_eq_dec x (remove item_eq_dec x l) = remove item_eq_dec x l.
Proof. apply notin_remove. apply remove_In. Qed.

Lemma remove_nodup (x : item) (l : list item) :
  NoDup l -> NoDup (remove item_eq_dec x l).
Proof.
  induction l as [| a l IH]; simpl; intros ND; [constructor |].
  inversion ND as [| ? ? Nin ND']; subst.
  destruct (item_eq_dec x a); [exact (IH ND') |].
  constructor; [| exact (IH ND')].
  intros H. apply Nin. exact (remove_subset x a l H).
Qed.

Lemma remove_last_item (x : item) (l : list item) :
  ~ In x l -> remove item_eq_dec x (l ++ [x]) = l.
Proof.
  intros N. rewrite remove_app, (notin_remove item_eq_dec l x N). simpl.
  destruct (item_eq_dec x x); [apply app_nil_r | congruence].
Qed.

Lemma lastElementChild_snoc (l : list item) (x : item) :
  lastElementChild (l ++ [x]) = Some x.
Proof. unfold lastElementChild. rewrite rev_app_distr. reflexivity. Qed.

(** ** One round of the loop *)

Lemma round_page (tm : Host.timer task) (v : world) :
  incl (kids (round tm v)) (kids v) /\ count (round tm v) = count v /\
  (forall x, Host.job tm = Detach x ->
             kids (round tm v) = remove item_eq_dec x (kids v)).
Proof.
  destruct (Host.job tm) as [x | x | x]; simpl; repeat split;
    try apply incl_refl; try discriminate.
  - intros y. apply remove_subset.
  - intros y [= <-]. reflexivity.
Qed.

Lemma set_timeout_ok (w : world) (j : task) (d : Z) (p : page) :
  queue_ok w ->
  queue_ok (World (snd (Host.setTimeout j d (host w))) p).
Proof.
  intros (ND & Lt & Due). unfold queue_ok. simpl.
  split; [| split].
  - rewrite map_app. simpl. apply nodup_snoc; [exact ND |].
    intros Hin. apply in_map_iff in Hin. destruct Hin as (tm & E & Hin).
    specialize (Lt tm Hin). lia.
  - intros tm Hin. apply in_app_or in Hin. destruct Hin as [Hin | [<- | []]].
    + specialize (Lt tm Hin). lia.
    + simpl. lia.
  - intros tm Hin. apply in_app_or in Hin. destruct Hin as [Hin | [<- | []]].
    + exact (Due tm Hin).
    + simpl. lia.
Qed.

Lemma take_ok (t0 : Z) (v : world) (tm : Host.timer task) :
  queue_ok v -> Host.next_due t0 (host v) = Some tm ->
  queue_ok (World (Host.take tm (host v)) (vars v)) /\
  Host.now (Host.take tm (host v)) = Host.due tm.
Proof.
  intros (ND & Lt & Due) N.
  destruct (next_due_picks t0 (host v) tm N) as (Hin & D & Min).
  split.
  - unfold queue_ok. simpl. split; [| split].
    + apply filter_tids. exact ND.
    + intros x Hx. apply filter_In in Hx. apply Lt. apply Hx.
    + intros x Hx. apply filter_In in Hx. destruct Hx as (Hx & _).
      specialize (Due x Hx). specialize (Min x Hx). lia.
  - simpl. specialize (Due tm Hin). lia.
Qed.

Lemma round_queue_ok (t0 : Z) (v : world) (tm : Host.timer task) :
  queue_ok v -> Host.next_due t0 (host v) = Some tm ->
  queue_ok (round tm v).
Proof.
  intros Q N. destruct (take_ok t0 v tm Q N) as (Q' & _).
  destruct (Host.job tm) as [x | x | x]; simpl.
  - exact Q'.
  - exact (set_timeout_ok _ (Detach x) 300 _ Q').
  - exact Q'.
Qed.

Lemma round_list_ok (k : nat) (v : world) (tm : Host.timer task) :
  list_ok k v -> list_ok k (round tm v).
Proof.
  intros (ND & K & Kn). destruct (round_page tm v) as (Sub & Cnt & _).
  unfold list_ok. rewrite Cnt. split; [| split; [exact K |]].
  - destruct (Host.job tm) as [x | x | x]; simpl; try exact ND.
    apply remove_nodup. exact ND.
  - intros x Hx. apply Kn. apply Sub. exact Hx.
Qed.

Lemma round_leaving (t0 T : Z) (x : item) (v : world)
      (tm : Host.timer task) :
  queue_ok v -> Host.next_due t0 (host v) = Some tm ->
  leaving T x v -> leaving T x (round tm v).
Proof.
  intros Q N L. pose proof Q as (ND & _ & Due).
  destruct (next_due_picks t0 (host v) tm N) as (Hin & _ & _).
  specialize (Due tm Hin).
  destruct (round_page tm v) as (Sub & _ & Det).
  assert (Stay : forall y, In y (pending v) -> Host.tid y <> Host.tid tm ->
                           In y (pending (round tm v))).
  { intros y Hy Ne. pose proof (take_keeps (host v) tm y Hy Ne) as K.
    destruct (Host.job tm); simpl; try exact K.
    apply in_or_app. left. exact K. }
  destruct L as [Out | [(y & Hy & J & D) | (y & Hy & J & D)]].
  - left. intros H. apply Out. apply Sub. exact H.
  - destruct (Nat.eq_dec (Host.tid y) (Host.tid tm)) as [E | Ne].
    + apply (same_tid _ y tm ND Hy Hin) in E. subst y.
      left. rewrite (Det x J). apply remove_In.
    + right. left. exists y. auto.
  - destruct (Nat.eq_dec (Host.tid y) (Host.tid tm)) as [E | Ne].
    + apply (same_tid _ y tm ND Hy Hin) in E. subst y.
      right. left. rewrite J. simpl.
      eexists. split; [apply in_or_app; right; left; reflexivity |].
      split; [reflexivity |]. simpl. lia.
    + right. right. exists y. auto.
Qed.


(** ** The loop *)

Lemma rounds_app (l1 l2 : list (Host.timer task)) :
  rounds (l1 ++ l2) = (rounds l1 + rounds l2)%nat.
Proof. induction l1 as [| a l1 IH]; simpl; [reflexivity | lia]. Qed.

Lemma rounds_take (l : list (Host.timer task)) (tm : Host.timer task) :
  In tm l ->
  (rounds (filter (Host.keeps (Host.tid tm)) l) + weight (Host.job tm)
   <= rounds l)%nat.
Proof.
  induction l as [| a l IH]; simpl; [contradiction |].
  intros [-> | Hin].
  - rewrite (keeps_same tm tm eq_refl).
    assert (rounds (filter (Host.keeps (Host.tid tm)) l) <= rounds l)%nat.
    { clear. induction l as [| b l IH]; simpl; [lia |].
      destruct (Host.keeps (Host.tid tm) b); simpl; lia. }
    lia.
  - specialize (IH Hin).
    destruct (Host.keeps (Host.tid tm) a); simpl; lia.
Qed.

Lemma round_rounds (t0 : Z) (v : world) (tm : Host.timer task) :
  Host.next_due t0 (host v) = Some tm ->
  (rounds (pending (round tm v)) < rounds (pending v))%nat.
Proof.
  intros N. destruct (next_due_picks t0 (host v) tm N) as (Hin & _ & _).
  pose proof (rounds_take (pending v) tm Hin) as R.
  destruct (Host.job tm) as [x | x | x]; simpl in *;
    try rewrite rounds_app; simpl; lia.
Qed.

(** What every round keeps, the loop keeps. *)
Lemma run_due_keeps (P : world -> Prop) (t0 : Z) :
  (forall v tm, P v -> Host.next_due t0 (host v) = Some tm -> P (round tm v)) ->
  forall (fuel : nat) (w : world), P w -> P (run_due exec fuel t0 w).
Proof.
  intros Step. induction fuel as [| fuel IH]; intros w Pw; simpl; [exact Pw |].
  destruct (Host.next_due t0 (host w)) as [tm |] eqn:N; [| exact Pw].
  apply IH. exact (Step w tm Pw N).
Qed.

(** The rounds granted are enough: no due timer is left. *)
Lemma run_due_done (t0 : Z) (fuel : nat) :
  forall w : world,
    (rounds (pending w) <= fuel)%nat ->
    forall tm, In tm (pending (run_due exec fuel t0 w)) -> t0 < Host.due tm.
Proof.
  induction fuel as [| fuel IH]; intros w R tm Hin; simpl in Hin.
  - destruct (pending w) as [| a l]; [contradiction |].
    simpl in R. destruct (Host.job a); simpl in R; lia.
  - destruct (Host.next_due t0 (host w)) as [t1 |] eqn:N.
    + apply (IH _) in Hin; [exact Hin |].
      pose proof (round_rounds t0 w t1 N). lia.
    + exact (next_due_nothing t0 (host w) N tm Hin).
Qed.

Lemma list_advance_settles (d : Z) (w : world) :
  forall tm, In tm (pending (advance d w)) -> now (advance d w) < Host.due tm.
Proof.
  intros tm Hin. unfold advance in *. simpl in *.
  exact (run_due_done _ _ w (le_n _) tm Hin).
Qed.

Lemma run_due_now (t0 : Z) (fuel : nat) :
  forall w : world,
    queue_ok w -> now w <= t0 -> now (run_due exec fuel t0 w) <= t0.
Proof.
  induction fuel as [| fuel IH]; intros w Q L; simpl; [exact L |].
  destruct (Host.next_due t0 (host w)) as [tm |] eqn:N; [| exact L].
  apply IH; [exact (round_queue_ok t0 w tm Q N) |].
  destruct (next_due_picks t0 (host w) tm N) as (_ & D & _).
  destruct (Host.job tm); simpl; lia.
Qed.

Lemma advance_queue_ok (d : Z) (w : world) :
  queue_ok w -> queue_ok (advance d w).
Proof.
  intros Q. unfold advance.
  pose proof (run_due_keeps queue_ok (now w + Z.max 0 d)
                (fun v tm Qv N => round_queue_ok _ v tm Qv N)
                (rounds (pending w)) w Q) as (ND & Lt & _).
  unfold queue_ok. simpl. split; [exact ND | split; [exact Lt |]].
  intros tm Hin.
  pose proof (run_due_done (now w + Z.max 0 d) _ w (le_n _) tm Hin). lia.
Qed.

Lemma advance_list_ok (k : nat) (d : Z) (w : world) :
  list_ok k w -> list_ok k (advance d w).
Proof.
  intros L. unfold advance.
  exact (run_due_keeps (list_ok k) (now w + Z.max 0 d)
           (fun v tm Lv _ => round_list_ok k v tm Lv)
           (rounds (pending w)) w L).
Qed.

Lemma advance_leaving (T : Z) (x : item) (d : Z) (w : world) :
  queue_ok w -> leaving T x w -> leaving T x (advance d w).
Proof.
  intros Q L. unfold advance.
  assert (K : queue_ok (run_due exec (rounds (pending w))
                                (now w + Z.max 0 d) w) /\
              leaving T x (run_due exec (rounds (pending w))
                                   (now w + Z.max 0 d) w)).
  { apply (run_due_keeps (fun v => queue_ok v /\ leaving T x v)); [| auto].
    intros v tm (Qv & Lv) N. split.
    - exact (round_queue_ok _ v tm Qv N).
    - exact (round_leaving _ T x v tm Qv N Lv). }
  exact (proj2 K).
Qed.

Lemma advance_page (d : Z) (w : world) :
  incl (kids (advance d w)) (kids w) /\ count (advance d w) = count w.
Proof.
  unfold advance. cbn [vars].
  apply (run_due_keeps
           (fun v => incl (kids v) (kids w) /\ count v = count w)).
  - intros v tm (I & C) _. destruct (round_page tm v) as (I' & C' & _).
    split; [exact (incl_tran I' I) | congruence].
  - split; [apply incl_refl | reflexivity].
Qed.

(** ** The listeners *)

Lemma known_grows (k c c' : nat) (x : item) :
  (c <= c')%nat -> known k c x -> known k c' x.
Proof. intros L. destruct x; simpl; lia. Qed.

Lemma schedule_fades_spec (l : list item) :
  forall (i : nat) (w : world),
    queue_ok w ->
    queue_ok (World (schedule_fades l i (host w)) (vars w)) /\
    Host.now (schedule_fades l i (host w)) = now w /\
    (forall tm, In tm (pending w) ->
                In tm (Host.pending (schedule_fades l i (host w)))) /\
    (forall x, In x l ->
               exists tm,
                 In tm (Host.pending (schedule_fades l i (host w))) /\
                 Host.job tm = FadeOut x /\
                 Host.due tm + 50 <= now w + Z.of_nat (i + length l) * 50).
Proof.
  induction l as [| a l IH]; intros i w Q; simpl.
  - split; [destruct w; exact Q |]. split; [reflexivity |].
    split; [auto | intros x []].
  - pose proof (set_timeout_ok w (FadeOut a) (Z.of_nat i * 50) (vars w) Q)
      as Q1.
    destruct (IH (S i) _ Q1) as (Q2 & N2 & Old & New). simpl in *.
    split; [exact Q2 |]. split; [exact N2 |]. split.
    + intros tm Hin. apply Old. apply in_or_app. left. exact Hin.
    + intros x [<- | Hx].
      * eexists. split;
          [apply Old; apply in_or_app; right; left; reflexivity |].
        split; [reflexivity |]. simpl. lia.
      * destruct (New x Hx) as (tm & Hin & J & D).
        exists tm. split; [exact Hin |]. split; [exact J |]. lia.
Qed.

Lemma schedule_fades_now (l : list item) :
  forall (i : nat) (h : Host.t task),
    Host.now (schedule_fades l i h) = Host.now h.
Proof.
  induction l as [| a l IH]; intros i h; simpl; [reflexivity |].
  rewrite IH. reflexivity.
Qed.

Lemma handle_queue_ok (w : world) (c : click) :
  queue_ok w -> queue_ok (handle w c).
Proof.
  intros Q. destruct c as [| | [|] | x | d]; simpl.
  - exact (set_timeout_ok w _ 10 _ Q).
  - unfold remove_last. destruct (lastElementChild (kids w)); [| exact Q].
    exact (set_timeout_ok w _ 300 _ Q).
  - exact (proj1 (schedule_fades_spec (kids w) 0 w Q)).
  - exact Q.
  - exact Q.
  - exact (advance_queue_ok d w Q).
Qed.

Lemma handle_list_ok (k : nat) (w : world) (c : click) :
  list_ok k w -> list_ok k (handle w c).
Proof.
  intros L. pose proof L as (ND & K & Kn).
  destruct c as [| | [|] | x | d]; simpl.
  - unfold list_ok. simpl. split; [| split; [lia |]].
    + apply nodup_snoc; [exact ND |].
      intros H. specialize (Kn _ H). simpl in Kn. lia.
    + intros x Hx. apply in_app_or in Hx. destruct Hx as [Hx | [<- | []]].
      * exact (known_grows k _ _ x (Nat.le_succ_diag_r _) (Kn x Hx)).
      * simpl. lia.
  - unfold remove_last. destruct (lastElementChild (kids w)); exact L.
  - exact L.
  - exact L.
  - unfold list_ok. simpl. split; [apply remove_nodup; exact ND |].
    split; [exact K |]. intros y Hy. apply Kn. exact (remove_subset x y _ Hy).
  - exact (advance_list_ok k d w L).
Qed.

Lemma handle_leaving (k : nat) (T : Z) (x : item) (w : world) (c : click) :
  queue_ok w -> list_ok k w -> known k (count w) x ->
  leaving T x w ->
  leaving T x (handle w c) /\ known k (count (handle w c)) x.
Proof.
  intros Q (_ & _ & Kn) Kx L.
  assert (Grow : forall (h : Host.t task) (p : page),
             incl (children p) (kids w) ->
             (forall tm, In tm (pending w) -> In tm (Host.pending h)) ->
             leaving T x (World h p)).
  { intros h p I Old.
    destruct L as [Out | [(y & Hy & J & D) | (y & Hy & J & D)]].
    - left. intros H. apply Out. apply I. exact H.
    - right. left. exists y. auto.
    - right. right. exists y. auto. }
  destruct c as [| | [|] | y | d];
    [simpl | simpl | simpl | simpl | simpl | cbn [handle]].
  - split; [| exact (known_grows k _ _ x (Nat.le_succ_diag_r _) Kx)].
    destruct L as [Out | [(y & Hy & J & D) | (y & Hy & J & D)]].
    + left. simpl. intros H. apply in_app_or in H.
      destruct H as [H | [<- | []]]; [exact (Out H) |].
      simpl in Kx. lia.
    + right. left. exists y. simpl. split; [apply in_or_app; auto | auto].
    + right. right. exists y. simpl. split; [apply in_or_app; auto | auto].
  - unfold remove_last. destruct (lastElementChild (kids w)); [| auto].
    split; [| exact Kx].
    apply Grow; [apply incl_refl |].
    intros tm Hin. simpl. apply in_or_app. left. exact Hin.
  - split; [| exact Kx].
    apply Grow; [apply incl_refl |].
    exact (proj1 (proj2 (proj2 (schedule_fades_spec (kids w) 0 w Q)))).
  - auto.
  - split; [| exact Kx]. apply Grow; [| auto].
    intros z. apply remove_subset.
  - split; [exact (advance_leaving T x d w Q L) |].
    rewrite (proj2 (advance_page d w)). exact Kx.
Qed.

Lemma play_ok (k : nat) (cs : list click) :
  forall w : world,
    queue_ok w -> list_ok k w -> queue_ok (play cs w) /\ list_ok k (play cs w).
Proof.
  induction cs as [| c cs IH]; intros w Q L; [auto |].
  simpl. apply IH; [apply handle_queue_ok | apply handle_list_ok]; assumption.
Qed.

Lemma play_leaving (k : nat) (T : Z) (x : item) (cs : list click) :
  forall w : world,
    queue_ok w -> list_ok k w -> known k (count w) x ->
    leaving T x w -> leaving T x (play cs w).
Proof.
  induction cs as [| c cs IH]; intros w Q L Kx Lv; [exact Lv |].
  simpl. destruct (handle_leaving k T x w c Q L Kx Lv) as (Lv' & Kx').
  apply IH; [apply handle_queue_ok | apply handle_list_ok | |]; assumption.
Qed.

Lemma play_now (cs : list click) :
  forall w : world, now (play cs w) = now w + waited cs.
Proof.
  induction cs as [| c cs IH]; intros w; simpl; [lia |].
  rewrite IH. destruct c as [| | [|] | x | d]; simpl; try lia.
  - unfold remove_last. destruct (lastElementChild (kids w)); simpl; lia.
  - rewrite schedule_fades_now. lia.
Qed.

Lemma static_nodup (l : list nat) : NoDup l -> NoDup (map Static l).
Proof.
  induction l as [| a l IH]; simpl; intros ND; [constructor |].
  inversion ND as [| ? ? Nin ND']; subst. constructor; [| exact (IH ND')].
  intros H. apply in_map_iff in H. destruct H as (b & [= ->] & Hb). tauto.
Qed.

Lemma start_ok (k : nat) (st : item -> css) :
  queue_ok (start k st) /\ list_ok k (start k st).
Proof.
  split.
  - unfold queue_ok. simpl. split; [constructor | split; intros tm []].
  - unfold list_ok. simpl. split; [| split; [lia |]].
    + apply static_nodup, seq_NoDup.
    + intros x Hx. apply in_map_iff in Hx. destruct Hx as (i & <- & Hi).
      apply in_seq in Hi. simpl. lia.
Qed.


Lemma handle_count (w : world) (c : click) :
  (count w <= count (handle w c))%nat /\
  forall y, In y (kids (handle w c)) ->
            In y (kids w) \/ exists n, y = Added n /\ (count w < n)%nat.
Proof.
  destruct c as [| | [|] | x | d];
    [simpl | simpl | simpl | simpl | simpl | cbn [handle]].
  - split; [lia |]. intros y Hy. apply in_app_or in Hy.
    destruct Hy as [Hy | [<- | []]]; [auto |]. right. eexists. split; eauto.
  - unfold remove_last. destruct (lastElementChild (kids w)); simpl; auto.
  - auto.
  - auto.
  - split; [lia |]. intros y Hy. left. exact (remove_subset x y _ Hy).
  - destruct (advance_page d w) as (I & C). rewrite C. split; [lia |].
    intros y Hy. left. apply I. exact Hy.
Qed.

Lemma play_origin (cs : list click) :
  forall w : world,
    (count w <= count (play cs w))%nat /\
    forall y, In y (kids (play cs w)) ->
              In y (kids w) \/ exists n, y = Added n /\ (count w < n)%nat.
Proof.
  induction cs as [| c cs IH]; intros w; [auto |].
  simpl. destruct (IH (handle w c)) as (C & O).
  destruct (handle_count w c) as (C' & O'). split; [lia |].
  intros y Hy. destruct (O y Hy) as [H | (n & -> & L)].
  - exact (O' y H).
  - right. exists n. split; [reflexivity | lia].
Qed.

Lemma play_count (cs : list click) :
  forall w : world, count (play cs w) = (count w + adds cs)%nat.
Proof.
  induction cs as [| c cs IH]; intros w; simpl; [lia |].
  rewrite IH. destruct c as [| | [|] | x | d];
    [simpl | simpl | simpl | simpl | simpl | cbn [handle adds]]; try lia.
  - unfold remove_last. destruct (lastElementChild (kids w)); simpl; lia.
  - rewrite (proj2 (advance_page d w)). reflexivity.
Qed.

Lemma known_listed (k c : nat) (x : item) :
  known k c x -> In x (all_known k c).
Proof.
  unfold all_known. intros K. apply in_or_app.
  destruct x as [i | n]; simpl in K.
  - left. apply in_map. apply in_seq. lia.
  - right. apply in_map. apply in_seq. lia.
Qed.

Lemma next_due_idle (t0 : Z) (h : Host.t task) :
  (forall tm, In tm (Host.pending h) -> t0 < Host.due tm) ->
  Host.next_due t0 h = None.
Proof.
  intros H. destruct (Host.next_due t0 h) as [tm |] eqn:N; [| reflexivity].
  destruct (next_due_picks t0 h tm N) as (Hin & D & _).
  specialize (H tm Hin). lia.
Qed.

Lemma advance_idle (d : Z) (w : world) :
  (forall tm, In tm (pending w) -> now w + Z.max 0 d < Host.due tm) ->
  advance d w = later d w.
Proof.
  intros H. unfold advance.
  destruct (rounds (pending w)); simpl; [reflexivity |].
  rewrite (next_due_idle _ _ H). reflexivity.
Qed.

(** When every pending timer is there to remove [x], the loop removes
    [x] if a timer is due and does nothing else. *)
Lemma run_due_detach (x : item) (t0 : Z) (fuel : nat) :
  forall w : world,
    (forall tm, In tm (pending w) -> Host.job tm = Detach x) ->
    kids (run_due exec fuel t0 w) = kids w \/
    kids (run_due exec fuel t0 w) = remove item_eq_dec x (kids w).
Proof.
  induction fuel as [| fuel IH]; intros w J; simpl; [auto |].
  destruct (Host.next_due t0 (host w)) as [tm |] eqn:N; [| auto].
  destruct (next_due_picks t0 (host w) tm N) as (Hin & _ & _).
  right. rewrite (J tm Hin). simpl.
  match goal with
  | |- kids (run_due exec fuel t0 ?v) = _ => destruct (IH v) as [E | E]
  end.
  - simpl. intros y Hy. apply filter_In in Hy. apply J. apply Hy.
  - rewrite E. reflexivity.
  - rewrite E. simpl. apply remove_twice.
Qed.

Lemma advance_detach (x : item) (d : Z) (w : world) (tm : Host.timer task) :
  (forall y, In y (pending w) -> Host.job y = Detach x) ->
  In tm (pending w) -> Host.due tm <= now w + Z.max 0 d ->
  kids (advance d w) = remove item_eq_dec x (kids w).
Proof.
  intros J Hin D. unfold advance. cbn [vars].
  assert (R : exists f, rounds (pending w) = S f).
  { destruct (pending w) as [| a l]; [contradiction |].
    simpl. destruct (Host.job a); simpl; eauto. }
  destruct R as (f & R). rewrite R. simpl.
  destruct (Host.next_due (now w + Z.max 0 d) (host w)) as [t1 |] eqn:N.
  - destruct (next_due_picks _ (host w) t1 N) as (H1 & _ & _).
    rewrite (J t1 H1). simpl.
    match goal with
    | |- kids (run_due exec f ?t ?v) = _ =>
        destruct (run_due_detach x t f v) as [E | E]
    end.
    + simpl. intros y Hy. apply filter_In in Hy. apply J. apply Hy.
    + rewrite E. reflexivity.
    + rewrite E. simpl. apply remove_twice.
  - pose proof (next_due_nothing _ (host w) N tm Hin). lia.
Qed.


Lemma all_known_length (k c : nat) :
  (k <= c)%nat -> length (all_known k c) = c.
Proof.
  intros L. unfold all_known.
  rewrite length_app, !length_map, !length_seq. lia.
Qed.

(** The remove clicks of a burst all aim at the same item. *)
Lemma burst_aims_at_one (x : item) (rest : list item) (t0 : Z)
      (ds : list Z) :
  forall (w : world),
    kids w = (rest ++ [x])%list ->
    (forall tm, In tm (pending w) ->
                Host.job tm = Detach x /\ t0 + 300 <= Host.due tm) ->
    t0 <= now w ->
    now w + waited (flat_map (fun e => [Wait e; RemoveLast]) ds) < t0 + 300 ->
    kids (play (flat_map (fun e => [Wait e; RemoveLast]) ds) w)
    = (rest ++ [x])%list /\
    (forall tm, In tm (pending w) ->
                In tm (pending (play (flat_map (fun e => [Wait e; RemoveLast])
                                               ds) w))) /\
    (forall tm,
        In tm (pending (play (flat_map (fun e => [Wait e; RemoveLast]) ds) w))
        -> Host.job tm = Detach x).
Proof.
  induction ds as [| e ds IH]; intros w K J T0 L.
  - simpl. split; [exact K |]. split; [auto |]. intros tm H. apply J. exact H.
  - change (flat_map (fun e => [Wait e; RemoveLast]) (e :: ds))
      with (Wait e :: RemoveLast
                 :: flat_map (fun e => [Wait e; RemoveLast]) ds) in *.
    change (waited (Wait e :: RemoveLast
                         :: flat_map (fun e => [Wait e; RemoveLast]) ds))
      with (Z.max 0 e
            + waited (flat_map (fun e => [Wait e; RemoveLast]) ds)) in L.
    pose proof (play_now (flat_map (fun e => [Wait e; RemoveLast]) ds) w) as Nn.
    assert (W0 : 0 <= waited (flat_map (fun e => [Wait e; RemoveLast]) ds)).
    { clear. induction ds as [| a ds IH]; simpl; lia. }
    change (play (Wait e :: RemoveLast
                       :: flat_map (fun e => [Wait e; RemoveLast]) ds) w)
      with (play (flat_map (fun e => [Wait e; RemoveLast]) ds)
                 (remove_last (advance e w))).
    rewrite advance_idle by (intros tm H; destruct (J tm H); lia).
    unfold remove_last. cbn [vars]. rewrite K, lastElementChild_snoc.
    match goal with
    | |- context [play _ ?v] => destruct (IH v) as (K' & Old & J')
    end.
    + reflexivity.
    + simpl. intros tm H. apply in_app_or in H.
      destruct H as [H | [<- | []]]; [apply J; exact H |].
      simpl. split; [reflexivity | lia].
    + simpl. lia.
    + simpl. lia.
    + split; [exact K' |]. split; [| exact J'].
      intros tm H. apply Old. simpl. apply in_or_app. left. exact H.
Qed.

End ListFacts.

Section ListResults.
Import Loop DynamicList.

Local Abbreviation kids w := (children (vars w)).
Local Abbreviation count w := (itemCount (vars w)).

(** X17: the counter of the dynamic list counts the clicks on [add],
    not the items: it only grows, the list never holds more items than
    it says, and the item a click on [add] appends carries a number no
    item has carried before, also after removals. *)
Theorem list_numbers_are_never_reused (k : nat) (st : item -> css)
        (cs : list click) :
  count (play cs (start k st)) = (k + adds cs)%nat /\
  NoDup (kids (play cs (start k st))) /\
  (forall x, In x (kids (play cs (start k st))) ->
             known k (count (play cs (start k st))) x) /\
  (length (kids (play cs (start k st))) <= count (play cs (start k st)))%nat /\
  kids (handle (play cs (start k st)) Add)
  = (kids (play cs (start k st))
     ++ [Added (S (count (play cs (start k st))))])%list /\
  ~ In (Added (S (count (play cs (start k st)))))
       (kids (play cs (start k st))).
Proof.
  destruct (start_ok k st) as (Q0 & L0).
  destruct (play_ok k cs (start k st) Q0 L0) as (_ & (ND & K & Kn)).
  split; [apply (play_count cs (start k st)) |].
  split; [exact ND |]. split; [exact Kn |]. split.
  - rewrite <- (all_known_length k _ K).
    apply NoDup_incl_length; [exact ND |].
    intros x Hx. apply known_listed. apply Kn. exact Hx.
  - split; [reflexivity |].
    intros H. specialize (Kn _ H). simpl in Kn. lia.
Qed.

(** X18: [clear all], once confirmed, empties the list of what it held:
    with [n] items at the click, every one of them is gone
    [50 n + 250] ms later, whatever is clicked meanwhile, and only
    items added after the click are left.  Declined, it does
    nothing. *)
Theorem clear_all_removes_every_item (k : nat) (st : item -> css)
        (before after : list click) (d : Z) :
  now (play before (start k st))
  + Z.of_nat (length (kids (play before (start k st)))) * 50 + 250
  <= now (play before (start k st)) + waited after + Z.max 0 d ->
  (forall x,
      In x (kids (play before (start k st))) ->
      ~ In x (kids (play (ClearAll true :: after ++ [Wait d])
                         (play before (start k st))))) /\
  (forall y,
      In y (kids (play (ClearAll true :: after ++ [Wait d])
                       (play before (start k st)))) ->
      exists n, y = Added n /\ (count (play before (start k st)) < n)%nat) /\
  play [ClearAll false] (play before (start k st))
  = play before (start k st).
Proof.
  intros Late.
  destruct (start_ok k st) as (Q0 & L0).
  destruct (play_ok k before (start k st) Q0 L0) as (Q & L).
  set (w := play before (start k st)) in *.
  set (T := now w + Z.of_nat (length (kids w)) * 50 + 250) in *.
  assert (Gone : forall x, In x (kids w) ->
                           ~ In x (kids (play (ClearAll true
                                                        :: after ++ [Wait d])
                                              w))).
  { intros x Hx.
    change (play (ClearAll true :: after ++ [Wait d]) w)
      with (play (after ++ [Wait d]) (clear_all true w)).
    unfold play. rewrite fold_left_app. fold (play after (clear_all true w)).
    cbn [fold_left handle].
    set (w1 := clear_all true w).
    assert (Q1 : queue_ok w1) by exact (handle_queue_ok w (ClearAll true) Q).
    assert (L1 : list_ok k w1) by exact (handle_list_ok k w (ClearAll true) L).
    assert (Lv1 : leaving T x w1).
    { right. right.
      destruct (schedule_fades_spec (kids w) 0 w Q) as (_ & _ & _ & New).
      destruct (New x Hx) as (tm & Hin & J & D).
      exists tm. split; [exact Hin |]. split; [exact J |].
      unfold T. simpl in D. lia. }
    assert (Kx : known k (count w1) x) by (apply (proj2 (proj2 L)); exact Hx).
    pose proof (play_leaving k T x after w1 Q1 L1 Kx Lv1) as Lv2.
    destruct (play_ok k after w1 Q1 L1) as (Q2 & _).
    pose proof (advance_leaving T x d _ Q2 Lv2) as Lv3.
    pose proof (list_advance_settles d (play after w1)) as S.
    assert (N3 : T <= now (advance d (play after w1))).
    { change (now (advance d (play after w1)))
        with (now (play after w1) + Z.max 0 d).
      rewrite play_now. unfold w1, clear_all. cbn [host].
      rewrite schedule_fades_now. exact Late. }
    destruct Lv3 as [Out | [(tm & Hin & _ & D) | (tm & Hin & _ & D)]].
    - exact Out.
    - specialize (S tm Hin). lia.
    - specialize (S tm Hin). lia. }
  split; [exact Gone |]. split; [| reflexivity].
  intros y Hy.
  destruct (proj2 (play_origin (ClearAll true :: after ++ [Wait d]) w) y Hy)
    as [H | H]; [| exact H].
  elim (Gone y H). exact Hy.
Qed.

(** X19: clicks on [remove] that come before the first one has taken
    effect all aim at the same item: from a list at rest, any number
    of them within 300 ms removes the last item and no other.  On an
    empty list a click does nothing. *)
Theorem remove_clicks_in_a_burst_remove_one (k : nat) (st : item -> css)
        (before : list click) (rest : list item) (x : item)
        (ds : list Z) (d : Z) :
  pending (play before (start k st)) = [] ->
  kids (play before (start k st)) = (rest ++ [x])%list ->
  waited (flat_map (fun e => [Wait e; RemoveLast]) ds) < 300 ->
  300 <= waited (flat_map (fun e => [Wait e; RemoveLast]) ds) + Z.max 0 d ->
  kids (play (RemoveLast :: flat_map (fun e => [Wait e; RemoveLast]) ds
                         ++ [Wait d])
             (play before (start k st)))
  = rest.
Proof.
  intros P K Short Long.
  destruct (start_ok k st) as (Q0 & L0).
  destruct (play_ok k before (start k st) Q0 L0) as (_ & (ND & _ & _)).
  set (w := play before (start k st)) in *.
  assert (Nx : ~ In x rest).
  { rewrite K in ND. apply NoDup_remove_2 in ND.
    rewrite app_nil_r in ND. exact ND. }
  change (play (RemoveLast :: flat_map (fun e => [Wait e; RemoveLast]) ds
                           ++ [Wait d]) w)
    with (play (flat_map (fun e => [Wait e; RemoveLast]) ds ++ [Wait d])
               (remove_last w)).
  unfold play. rewrite fold_left_app.
  fold (play (flat_map (fun e => [Wait e; RemoveLast]) ds) (remove_last w)).
  cbn [fold_left handle].
  unfold remove_last. rewrite K, lastElementChild_snoc.
  match goal with
  | |- context [play _ ?v] =>
      set (w1 := v);
      destruct (burst_aims_at_one x rest (now w) ds w1) as (K' & Old & J')
  end.
  - reflexivity.
  - simpl. rewrite P. simpl. intros tm [<- | []]. simpl.
    split; [reflexivity | lia].
  - simpl. lia.
  - simpl. lia.
  - rewrite (advance_detach
               x d _ (Host.Timer (Host.next_id (host w)) (now w + Z.max 0 300)
                                 (Detach x)) J').
    + rewrite K'. apply remove_last_item. exact Nx.
    + apply Old. simpl. apply in_or_app. right. left. reflexivity.
    + rewrite play_now. simpl. lia.
Qed.

End ListResults.

(** An instance: three items, one added, then [clear all], another one
    added 20 ms later, and half a second of rest. *)
Lemma clear_all_removes_every_item_witness :
  ~ In (DynamicList.Added 4)
       (DynamicList.children
          (Loop.vars
             (DynamicList.play
                (DynamicList.ClearAll true
                 :: [DynamicList.Wait 20; DynamicList.Add]
                    ++ [DynamicList.Wait 500])
                (DynamicList.play
                   [DynamicList.Add]
                   (DynamicList.start 3 (fun _ => DynamicList.Css "" "" "")))))).
Proof.
  assert (H : 0 + Z.of_nat 4 * 50 + 250 <= 0 + 20 + Z.max 0 500)
    by (vm_compute; discriminate).
  apply (proj1 (clear_all_removes_every_item
                  3 (fun _ => DynamicList.Css "" "" "")
                  [DynamicList.Add] [DynamicList.Wait 20; DynamicList.Add]
                  500 H)).
  vm_compute. auto.
Defined.

(** An instance: after two clicks on [add] on a page of three items the
    list holds items 4 and 5 at its end. *)
Lemma list_numbers_are_never_reused_witness :
  DynamicList.known
    3 5 (DynamicList.Added 5).
Proof.
  destruct (list_numbers_are_never_reused
              3 (fun _ => DynamicList.Css "" "" "")
              [DynamicList.Add; DynamicList.Delete (DynamicList.Added 4);
               DynamicList.Add]) as (_ & _ & K & _).
  apply (K (DynamicList.Added 5)). vm_compute. auto.
Defined.

(** An instance: three clicks on [remove] within 200 ms on a list of
    three. *)
Lemma remove_clicks_in_a_burst_remove_one_witness :
  DynamicList.children
    (Loop.vars
       (DynamicList.play
          (DynamicList.RemoveLast
           :: flat_map (fun e => [DynamicList.Wait e; DynamicList.RemoveLast])
                       [100; 100]
              ++ [DynamicList.Wait 100])
          (DynamicList.play
             [] (DynamicList.start 3 (fun _ => DynamicList.Css "" "" "")))))
  = [DynamicList.Static 0; DynamicList.Static 1].
Proof.
  apply (remove_clicks_in_a_burst_remove_one
           3 (fun _ => DynamicList.Css "" "" "") []
           [DynamicList.Static 0; DynamicList.Static 1] (DynamicList.Static 2)
           [100; 100] 100).
  - reflexivity.
  - reflexivity.
  - vm_compute. reflexivity.
  - vm_compute. discriminate.
Defined.

(** * The window size display *)

Section WindowFacts.
Import Loop WindowSize.

Local Abbreviation shown w :=
  (widthText (Throttle.state w), heightText (Throttle.state w)).
Local Abbreviation actual w :=
  (innerWidth (Throttle.state w), innerHeight (Throttle.state w)).

Lemma waits_keep (ds : list Z) :
  forall w : Throttle.world view,
    Throttle.state (play (map Wait ds) w) = Throttle.state w /\
    Throttle.log (play (map Wait ds) w) = Throttle.log w.
Proof.
  induction ds as [| d ds IH]; intros w; [split; reflexivity |].
  change (play (map Wait (d :: ds)) w)
    with (play (map Wait ds) (Throttle.tick d w)).
  destruct (IH (Throttle.tick d w)) as (S & L). rewrite S, L.
  destruct (tick_log d w) as (L' & S'). split; assumption.
Qed.

(** X20: the size display follows the throttle, not the window.  A
    resize that finds the throttle idle is shown at once; one that
    arrives within the 250 ms after a shown one is never shown, however
    long the window then keeps its size. *)
Theorem window_size_display_can_stay_stale (hs : list happening) (v0 : view)
        (width height ev : nat) :
  (Throttle.not_flag (Throttle.flag (play hs (Throttle.fresh v0))) = true ->
   shown (handle (play hs (Throttle.fresh v0)) (Resize width height ev))
   = (JS.digits width, JS.digits height)) /\
  (Throttle.flag (play hs (Throttle.fresh v0)) = Some true ->
   forall ds : list Z,
     shown (play (Resize width height ev :: map Wait ds)
                 (play hs (Throttle.fresh v0)))
     = shown (play hs (Throttle.fresh v0)) /\
     actual (play (Resize width height ev :: map Wait ds)
                  (play hs (Throttle.fresh v0)))
     = (width, height)).
Proof.
  set (w := play hs (Throttle.fresh v0)). split.
  - intros F. unfold handle, Throttle.throttled. simpl. rewrite F. reflexivity.
  - intros F ds.
    change (play (Resize width height ev :: map Wait ds) w)
      with (play (map Wait ds) (handle w (Resize width height ev))).
    destruct (waits_keep ds (handle w (Resize width height ev))) as (S & _).
    rewrite S. unfold handle, Throttle.throttled. simpl. rewrite F.
    split; reflexivity.
Qed.

End WindowFacts.

(** An instance: the window is resized twice within 100 ms and then
    left alone for a minute. *)
Lemma window_size_display_can_stay_stale_witness :
  WindowSize.widthText
    (Throttle.state
       (WindowSize.play
          (WindowSize.Resize 640 480 2 :: map WindowSize.Wait [60000])
          (WindowSize.play
             [WindowSize.Resize 800 600 1; WindowSize.Wait 100]
             (Throttle.fresh (WindowSize.View 1024 768 [] [])))))
  = JS.digits 800.
Proof.
  assert (F : Throttle.flag
                (WindowSize.play
                   [WindowSize.Resize 800 600 1; WindowSize.Wait 100]
                   (Throttle.fresh (WindowSize.View 1024 768 [] [])))
              = Some true) by reflexivity.
  destruct (window_size_display_can_stay_stale
              [WindowSize.Resize 800 600 1; WindowSize.Wait 100]
              (WindowSize.View 1024 768 [] []) 640 480 2) as (_ & S).
  destruct (S F [60000]) as (E & _).
  exact (eq_trans (f_equal fst E) eq_refl).
Defined.

(** * The tabs *)

Section TabFacts.
Import Tabs.
Local Open Scope nat_scope.

Lemma update_length (p : nat) (f : element -> element) (doc : document) :
  length (update p f doc) = length doc.
Proof.
  revert p. induction doc as [| e doc IH]; intros p; [reflexivity |].
  destruct p; simpl; [reflexivity | rewrite IH; reflexivity].
Qed.

Lemma update_nth (f : element -> element) (doc : document) :
  forall p q : nat,
    nth_error (update p f doc) q
    = if q =? p then option_map f (nth_error doc q) else nth_error doc q.
Proof.
  induction doc as [| e doc IH]; intros p q.
  - simpl. destruct q; destruct (_ =? _); reflexivity.
  - destruct p, q; simpl; try reflexivity. apply IH.
Qed.

Lemma contains_removed (token : string) (e : element) :
  contains token (remove_class token e) = false.
Proof.
  unfold contains, remove_class. simpl.
  induction (classList e) as [| c l IH]; simpl; [reflexivity |].
  destruct (String.eqb token c) eqn:E; simpl; [exact IH |].
  rewrite E. exact IH.
Qed.

Lemma contains_added (token : string) (e : element) :
  contains token (add_class token e) = true.
Proof.
  unfold add_class. destruct (contains token e) eqn:C; [exact C |].
  unfold contains. simpl. rewrite existsb_app. simpl.
  rewrite String.eqb_refl. apply orb_true_r.
Qed.

Lemma active_removed (doc : document) (p q : nat) :
  active (update p (remove_class "active") doc) q
  = active doc q && negb (q =? p).
Proof.
  unfold active. rewrite update_nth.
  destruct (q =? p); [| rewrite andb_true_r; reflexivity].
  destruct (nth_error doc q) as [e |]; simpl; [| reflexivity].
  rewrite contains_removed. rewrite andb_false_r. reflexivity.
Qed.

Lemma active_added (doc : document) (p q : nat) :
  p < length doc ->
  active (update p (add_class "active") doc) q = active doc q || (q =? p).
Proof.
  intros L. unfold active. rewrite update_nth.
  destruct (Nat.eqb_spec q p) as [-> | N]; [| rewrite orb_false_r; reflexivity].
  destruct (nth_error doc p) as [e |] eqn:E.
  - simpl. rewrite contains_added. rewrite orb_true_r. reflexivity.
  - apply nth_error_None in E. lia.
Qed.

Lemma active_removed_all (nodes : list nat) :
  forall (doc : document) (q : nat),
    active (remove_from_all "active" nodes doc) q
    = active doc q && negb (existsb (Nat.eqb q) nodes).
Proof.
  unfold remove_from_all.
  induction nodes as [| n nodes IH]; intros doc q; simpl.
  - rewrite andb_true_r. reflexivity.
  - rewrite IH, active_removed, negb_orb, andb_assoc. reflexivity.
Qed.

Lemma remove_all_length (nodes : list nat) :
  forall doc : document,
    length (remove_from_all "active" nodes doc) = length doc.
Proof.
  unfold remove_from_all. induction nodes as [| n nodes IH]; intros doc;
    simpl; [reflexivity |].
  rewrite IH. apply update_length.
Qed.

Lemma update_marks (p : nat) (f : element -> element) (doc : document) :
  (forall e, id (f e) = id e /\ dataTab (f e) = dataTab e) ->
  same_marks doc (update p f doc).
Proof.
  intros H. unfold same_marks. revert p.
  induction doc as [| e doc IH]; intros p; [split; reflexivity |].
  destruct p; simpl.
  - destruct (H e) as (-> & ->). split; reflexivity.
  - destruct (IH p) as (-> & ->). split; reflexivity.
Qed.

Lemma same_marks_trans (a b c : document) :
  same_marks a b -> same_marks b c -> same_marks a c.
Proof. unfold same_marks. intros (-> & ->) (-> & ->). split; reflexivity. Qed.

Lemma remove_class_marks (token : string) (e : element) :
  id (remove_class token e) = id e /\
  dataTab (remove_class token e) = dataTab e.
Proof. split; reflexivity. Qed.

Lemma add_class_marks (token : string) (e : element) :
  id (add_class token e) = id e /\ dataTab (add_class token e) = dataTab e.
Proof. unfold add_class. destruct (contains token e); split; reflexivity. Qed.

Lemma remove_all_marks (nodes : list nat) :
  forall doc : document, same_marks doc (remove_from_all "active" nodes doc).
Proof.
  unfold remove_from_all. induction nodes as [| n nodes IH]; intros doc; simpl.
  - split; reflexivity.
  - apply (same_marks_trans _ (update n (remove_class "active") doc)).
    + apply update_marks. apply remove_class_marks.
    + apply IH.
Qed.

Lemma getElementById_marks (name : string) (d d' : document) :
  map id d' = map id d ->
  forall from, getElementById name d' from = getElementById name d from.
Proof.
  revert d'. induction d as [| e d IH]; intros d' E from.
  - destruct d'; [reflexivity | discriminate].
  - destruct d' as [| e' d']; [discriminate |].
    simpl in E. injection E as E1 E2. simpl. rewrite E1, (IH d' E2).
    reflexivity.
Qed.

Lemma getElementById_range (name : string) (doc : document) :
  forall from p,
    getElementById name doc from = Some p -> from <= p < from + length doc.
Proof.
  induction doc as [| e doc IH]; intros from p; simpl; [discriminate |].
  destruct (id e) as [i |].
  - destruct (String.eqb i name && negb (String.eqb i "")).
    + intros [= <-]. lia.
    + intros H. apply IH in H. lia.
  - intros H. apply IH in H. lia.
Qed.

Lemma nth_marks (d d' : document) (q : nat) :
  same_marks d d' ->
  option_map dataTab (nth_error d' q) = option_map dataTab (nth_error d q).
Proof.
  intros (_ & E). rewrite <- !nth_error_map, E. reflexivity.
Qed.


Lemma tab_click_shape (buttons panels : list nat) (b : nat) (doc : document) :
  b < length doc ->
  same_marks doc (on_tab_click buttons panels b doc) /\
  length (on_tab_click buttons panels b doc) = length doc /\
  forall q : nat,
    active (on_tab_click buttons panels b doc) q
    = (q =? b)
      || match target_of b doc with
         | Some p => q =? p
         | None => false
         end
      || active doc q && negb (existsb (Nat.eqb q) buttons)
         && negb (existsb (Nat.eqb q) panels).
Proof.
  intros L. unfold on_tab_click.
  set (d1 := remove_from_all "active" buttons doc).
  set (d2 := remove_from_all "active" panels d1).
  set (d3 := update b (add_class "active") d2).
  assert (M1 : same_marks doc d1) by apply remove_all_marks.
  assert (M2 : same_marks doc d2)
    by (apply (same_marks_trans _ d1); [exact M1 | apply remove_all_marks]).
  assert (M3 : same_marks doc d3).
  { apply (same_marks_trans _ d2); [exact M2 |].
    apply update_marks. apply add_class_marks. }
  assert (L2 : length d2 = length doc)
    by (unfold d2, d1; rewrite !remove_all_length; reflexivity).
  assert (L3 : length d3 = length doc)
    by (unfold d3; rewrite update_length; exact L2).
  assert (Tab : match nth_error d3 b with
                | Some e => tab_id e
                | None => "null"%string
                end
                = match nth_error doc b with
                  | Some e => tab_id e
                  | None => "null"%string
                  end).
  { pose proof (nth_marks doc d3 b M3) as E. unfold tab_id.
    destruct (nth_error d3 b), (nth_error doc b); simpl in E;
      try discriminate; [| reflexivity].
    injection E as ->. reflexivity. }
  rewrite Tab, (getElementById_marks _ doc d3 (proj1 M3)).
  fold (target_of b doc).
  assert (A3 : forall q, active d3 q
                         = (q =? b)
                           || active doc q
                              && negb (existsb (Nat.eqb q) buttons)
                              && negb (existsb (Nat.eqb q) panels)).
  { intros q. unfold d3. rewrite active_added by lia.
    unfold d2, d1. rewrite !active_removed_all. apply orb_comm. }
  destruct (target_of b doc) as [p |] eqn:T.
  - assert (Lp : p < length d3).
    { unfold target_of in T. apply getElementById_range in T. lia. }
    split; [| split].
    + apply (same_marks_trans _ d3); [exact M3 |].
      apply update_marks. apply add_class_marks.
    + rewrite update_length. exact L3.
    + intros q. rewrite active_added by exact Lp. rewrite A3.
      destruct (q =? b), (q =? p),
        (active doc q && negb (existsb (Nat.eqb q) buttons)
         && negb (existsb (Nat.eqb q) panels)); reflexivity.
  - split; [exact M3 |]. split; [exact L3 |].
    intros q. rewrite A3, orb_false_r. reflexivity.
Qed.

Lemma member_spec (q : nat) (l : list nat) :
  existsb (Nat.eqb q) l = true <-> In q l.
Proof.
  rewrite existsb_exists. split.
  - intros (x & Hx & E). apply Nat.eqb_eq in E. subst. exact Hx.
  - intros H. exists q. split; [exact H | apply Nat.eqb_refl].
Qed.

(** X21: a click on a tab button removes [active] from every tab
    button and every tab panel, then sets it on the button clicked and
    on the first element of the document whose id is the button's
    [data-tab]; nothing but classes changes.  So when that element is
    a tab panel, the button clicked is the one active button and that
    panel the one active panel. *)
Theorem tab_click_leaves_one_tab_active (buttons panels : list nat)
        (b : nat) (doc : document) :
  b < length doc ->
  same_marks doc (on_tab_click buttons panels b doc) /\
  length (on_tab_click buttons panels b doc) = length doc /\
  (forall q : nat,
      active (on_tab_click buttons panels b doc) q = true <->
      q = b \/ target_of b doc = Some q \/
      (active doc q = true /\ ~ In q buttons /\ ~ In q panels)) /\
  (forall p : nat,
      In b buttons -> ~ In b panels ->
      target_of b doc = Some p -> In p panels -> ~ In p buttons ->
      (forall q, In q buttons ->
                 (active (on_tab_click buttons panels b doc) q = true <->
                  q = b)) /\
      (forall q, In q panels ->
                 (active (on_tab_click buttons panels b doc) q = true <->
                  q = p))).
Proof.
  intros L. destruct (tab_click_shape buttons panels b doc L) as (M & Len & A).
  assert (Iff : forall q : nat,
             active (on_tab_click buttons panels b doc) q = true <->
             q = b \/ target_of b doc = Some q \/
             (active doc q = true /\ ~ In q buttons /\ ~ In q panels)).
  { intros q. rewrite A, !orb_true_iff, !andb_true_iff, !negb_true_iff.
    rewrite Nat.eqb_eq.
    assert (Nb : existsb (Nat.eqb q) buttons = false <-> ~ In q buttons).
    { rewrite <- member_spec. destruct (existsb (Nat.eqb q) buttons);
        split; congruence. }
    assert (Np : existsb (Nat.eqb q) panels = false <-> ~ In q panels).
    { rewrite <- member_spec. destruct (existsb (Nat.eqb q) panels);
        split; congruence. }
    rewrite Nb, Np.
    destruct (target_of b doc) as [p |].
    - rewrite Nat.eqb_eq. split.
      + intros [[H | H] | ((Ha & Hb) & Hc)]; [auto | subst; auto | auto].
      + intros [H | [[= ->] | (Ha & Hb & Hc)]]; auto.
    - split.
      + intros [[H | H] | ((Ha & Hb) & Hc)]; [auto | discriminate | auto].
      + intros [H | [H | (Ha & Hb & Hc)]]; [auto | discriminate | auto]. }
  split; [exact M |]. split; [exact Len |]. split; [exact Iff |].
  intros p Bb Bp T Pp Pb. split.
  - intros q Hq. rewrite Iff, T. split.
    + intros [H | [[= <-] | (_ & N & _)]]; [exact H | tauto | tauto].
    + auto.
  - intros q Hq. rewrite Iff, T. split.
    + intros [-> | [[= <-] | (_ & _ & N)]]; [tauto | reflexivity | tauto].
    + intros ->. auto.
Qed.

End TabFacts.

(** An instance: two tab buttons and their two panels; the second tab
    is clicked while the first is active. *)
Lemma tab_click_leaves_one_tab_active_witness :
  Tabs.active
    (Tabs.on_tab_click
       [0; 1]%nat [2; 3]%nat 1
       [Tabs.Element None ["tab-button"; "active"]%string (Some "a"%string);
        Tabs.Element None ["tab-button"]%string (Some "b"%string);
        Tabs.Element (Some "a"%string) ["tab-panel"; "active"]%string None;
        Tabs.Element (Some "b"%string) ["tab-panel"]%string None]) 0
  = true <-> (0 = 1)%nat.
Proof.
  assert (L : (1 < 4)%nat) by lia.
  destruct (tab_click_leaves_one_tab_active
              [0; 1]%nat [2; 3]%nat 1
              [Tabs.Element None ["tab-button"; "active"]%string
                            (Some "a"%string);
               Tabs.Element None ["tab-button"]%string (Some "b"%string);
               Tabs.Element (Some "a"%string) ["tab-panel"; "active"]%string
                            None;
               Tabs.Element (Some "b"%string) ["tab-panel"]%string None] L)
    as (_ & _ & _ & W).
  assert (B : In 1%nat [0; 1]%nat) by (simpl; auto).
  assert (NB : ~ In 1%nat [2; 3]%nat) by (simpl; lia).
  assert (P : In 3%nat [2; 3]%nat) by (simpl; auto).
  assert (NP : ~ In 3%nat [0; 1]%nat) by (simpl; lia).
  destruct (W 3%nat B NB eq_refl P NP) as (Bs & _).
  apply (Bs 0%nat). simpl. auto.
Defined.
